(** * regionscript: colour regions of a bitmap as rectangles

    A shallow embedding of [generate_regions.py] and the properties of
    its two geometric stages: the flood fill that extracts the connected
    colour components of the pixel grid, and the greedy decomposition of
    a component into rectangles.

    Python integers are unbounded, so coordinates are [Z].  A Python
    [set] of coordinate tuples is a [gset (Z * Z)]; a [dict], whose
    iteration order is its insertion order, is an association list.
    Code that can raise returns an [outcome]; [while] loops are written
    by recursion on an iteration bound and report [Timeout] when the
    bound is used up. *)

From stdpp Require Import gmap sets list strings pretty.

Open Scope Z_scope.

(** ** Outcomes of Python code *)

(** The exception classes that occur.  [KeyboardInterrupt] and
    [SystemExit] derive from [BaseException] only; all the others
    derive from [Exception]. *)
Inductive exn_class : Type :=
| KeyError
| IndexError
| TypeError
| ValueError
| OSError
| KeyboardInterrupt
| SystemExit
| OtherError (name : string).

Inductive exn : Type :=
| Exn (cls : exn_class) (msg : string).

Definition exn_msg (e : exn) : string :=
  match e with Exn _ msg => msg end.

(** What [except Exception] catches. *)
Definition is_Exception (e : exn) : bool :=
  match e with
  | Exn KeyboardInterrupt _ | Exn SystemExit _ => false
  | Exn _ _ => true
  end.

Inductive outcome (A : Type) : Type :=
| Ret (a : A)
| Raise (e : exn)
| Timeout.

Arguments Ret {A} a.
Arguments Raise {A} e.
Arguments Timeout {A}.

#[global] Instance outcome_ret : MRet outcome := fun A a => Ret a.

#[global] Instance outcome_bind : MBind outcome := fun A B f m =>
  match m with
  | Ret a => f a
  | Raise e => Raise e
  | Timeout => Timeout
  end.

(** [for x in xs: s = body(x, s)], stopping at the first exception. *)
Fixpoint for_each {A S : Type} (xs : list A) (body : A -> S -> outcome S)
    (s : S) : outcome S :=
  match xs with
  | [] => Ret s
  | x :: xs' => s' ← body x s; for_each xs' body s'
  end.

(** ** Coordinates, rectangles, ranges *)

Abbreviation point := (Z * Z)%type.

(** A rectangle [(x, y, width, height)]. *)
Abbreviation rect := (Z * Z * Z * Z)%type.

(** Python's [range(a, b)]. *)
Definition range (a b : Z) : list Z := seqZ a (b - a).

(** All coordinates of a [w] by [h] grid, row by row. *)
Definition grid_list (w h : Z) : list point :=
  y ← range 0 h; x ← range 0 w; [(x, y)].

(** The coordinates a rectangle covers. *)
Definition covers (r : rect) (p : point) : Prop :=
  let '(x0, y0, width, height) := r in
  x0 <= p.1 < x0 + width /\ y0 <= p.2 < y0 + height.

#[global] Instance covers_dec r p : Decision (covers r p).
Proof. destruct r as [[[x0 y0] width] height]. simpl. apply _. Defined.

(** [str] of a coordinate tuple. *)
Definition repr_point (p : point) : string :=
  "(" +:+ pretty p.1 +:+ ", " +:+ pretty p.2 +:+ ")".

(** ** Python sets of coordinates *)

(** [s.remove(p)] raises [KeyError] when [p] is absent. *)
Definition set_remove (p : point) (s : gset point) : outcome (gset point) :=
  if decide (p ∈ s) then Ret (s ∖ {[ p ]})
  else Raise (Exn KeyError (repr_point p)).

(** ** Dictionaries in insertion order *)

Section Dict.
Context {K V : Type} `{EqDecision K}.

Definition dict_keys (d : list (K * V)) : list K := d.*1.

(** [k in d] *)
Definition dict_has (d : list (K * V)) (k : K) : bool :=
  bool_decide (k ∈ dict_keys d).

(** [d[k]], a [KeyError] when the key is absent. *)
Fixpoint dict_get (d : list (K * V)) (k : K) : outcome V :=
  match d with
  | [] => Raise (Exn KeyError "")
  | (k', v) :: d' => if decide (k = k') then Ret v else dict_get d' k
  end.

(** [d[k] = v]: an existing key keeps its place, a new one goes last. *)
Fixpoint dict_set (d : list (K * V)) (k : K) (v : V) : list (K * V) :=
  match d with
  | [] => [(k, v)]
  | (k', v') :: d' =>
      if decide (k = k') then (k, v) :: d' else (k', v') :: dict_set d' k v
  end.
End Dict.

(** ** RectangleDecomposer: [split_into_rects] *)

Section Decomposer.
(** [set.pop] removes and returns an arbitrary element; [choose] is
    the element it picks from a set.  The sets a run pops from shrink
    strictly, so they are pairwise different and a function of the set
    alone describes any sequence of picks. *)
Variable choose : gset point -> point.

Definition set_pop (s : gset point) : outcome (point * gset point) :=
  if decide (s = ∅) then Raise (Exn KeyError "pop from an empty set")
  else let p := choose s in Ret (p, s ∖ {[ p ]}).

(** [while (x0 + width, y0) in points: points.remove(..); width += 1] *)
Fixpoint grow_width (n : nat) (x0 y0 width : Z) (points : gset point)
    : outcome (Z * gset point) :=
  match n with
  | O => Timeout
  | S n' =>
      if decide ((x0 + width, y0) ∈ points) then
        points' ← set_remove (x0 + width, y0) points;
        grow_width n' x0 y0 (width + 1) points'
      else Ret (width, points)
  end.

(** The inner [for x in range(x0, x0 + width)] with its [break]:
    [true] when the loop runs to its [else] branch. *)
Fixpoint row_present (xs : list Z) (y : Z) (points : gset point) : bool :=
  match xs with
  | [] => true
  | x :: xs' =>
      if decide ((x, y) ∈ points) then row_present xs' y points else false
  end.

(** [for x in range(x0, x0 + width): points.remove((x, y))] *)
Definition remove_row (xs : list Z) (y : Z) (points : gset point)
    : outcome (gset point) :=
  for_each xs (fun x points => set_remove (x, y) points) points.

(** The [for y in ...] loop over the rows [ys]; the list of rows is
    fixed when the loop starts. *)
Fixpoint grow_height (ys : list Z) (x0 width height : Z)
    (points : gset point) : outcome (Z * gset point) :=
  match ys with
  | [] => Ret (height, points)
  | y :: ys' =>
      if row_present (range x0 (x0 + width)) y points then
        points' ← remove_row (range x0 (x0 + width)) y points;
        grow_height ys' x0 width (height + 1) points'
      else Ret (height, points)
  end.

(** One pass of the body of [while points]. *)
Definition split_step (points : gset point) : outcome (rect * gset point) :=
  '(p, points) ← set_pop points;
  let '(x0, y0) := p in
  let width := 1 in
  let height := 1 in
  '(width, points) ← grow_width (S (size points)) x0 y0 width points;
  '(height, points) ←
    grow_height (range (y0 + 1) (y0 + height + 1)) x0 width height points;
  Ret ((x0, y0, width, height), points).

(** [while points: ...; rects.append(..)], at most [n] tests of the
    loop condition. *)
Fixpoint split_loop (n : nat) (points : gset point) (rects : list rect)
    : outcome (list rect) :=
  match n with
  | O => Timeout
  | S n' =>
      if decide (points = ∅) then Ret rects
      else
        '(r, points') ← split_step points;
        split_loop n' points' (rects ++ [r])
  end.

Definition split_into_rects (points : list point) : outcome (list rect) :=
  let points : gset point := list_to_set points in
  split_loop (S (size points)) points [].
End Decomposer.

(** ** The same decomposition over an object store

    [split_into_rects] receives a reference to the caller's collection
    and works on the set object that [set(points)] allocates.  Here the
    objects live in a store and every set operation reads and writes the
    object behind a reference. *)

Module Store.
Inductive obj : Type :=
| PyList (items : list point)
| PySet (items : gset point).

Abbreviation heap := (gmap nat obj).

(** [set(points)]: a new set object with the elements of the
    collection behind [l]. *)
Definition new_set (l : nat) (h : heap) : outcome (nat * heap) :=
  match h !! l with
  | Some (PyList items) =>
      let l' := fresh (dom h) in
      Ret (l', <[l' := PySet (list_to_set items)]> h)
  | Some (PySet items) =>
      let l' := fresh (dom h) in Ret (l', <[l' := PySet items]> h)
  | None => Raise (Exn TypeError "not an object")
  end.

(** The set behind a reference; a list has none of the set methods
    used below. *)
Definition get_set (l : nat) (h : heap) : outcome (gset point) :=
  match h !! l with
  | Some (PySet s) => Ret s
  | _ => Raise (Exn TypeError "not a set")
  end.

(** [p in points] *)
Definition set_contains (l : nat) (p : point) (h : heap) : outcome bool :=
  s ← get_set l h; Ret (bool_decide (p ∈ s)).

(** [points.remove(p)] *)
Definition set_remove_at (l : nat) (p : point) (h : heap) : outcome heap :=
  s ← get_set l h; s' ← set_remove p s; Ret (<[l := PySet s']> h).

(** [points.pop()] *)
Definition set_pop_at (choose : gset point -> point) (l : nat) (h : heap)
    : outcome (point * heap) :=
  s ← get_set l h;
  '(p, s') ← set_pop choose s;
  Ret (p, <[l := PySet s']> h).

Fixpoint grow_width (n : nat) (l : nat) (x0 y0 width : Z) (h : heap)
    : outcome (Z * heap) :=
  match n with
  | O => Timeout
  | S n' =>
      b ← set_contains l (x0 + width, y0) h;
      if b : bool then
        h' ← set_remove_at l (x0 + width, y0) h;
        grow_width n' l x0 y0 (width + 1) h'
      else Ret (width, h)
  end.

Fixpoint row_present (l : nat) (xs : list Z) (y : Z) (h : heap)
    : outcome bool :=
  match xs with
  | [] => Ret true
  | x :: xs' =>
      b ← set_contains l (x, y) h;
      if b : bool then row_present l xs' y h else Ret false
  end.

Definition remove_row (l : nat) (xs : list Z) (y : Z) (h : heap)
    : outcome heap :=
  for_each xs (fun x h => set_remove_at l (x, y) h) h.

Fixpoint grow_height (l : nat) (ys : list Z) (x0 width height : Z)
    (h : heap) : outcome (Z * heap) :=
  match ys with
  | [] => Ret (height, h)
  | y :: ys' =>
      b ← row_present l (range x0 (x0 + width)) y h;
      if b : bool then
        h' ← remove_row l (range x0 (x0 + width)) y h;
        grow_height l ys' x0 width (height + 1) h'
      else Ret (height, h)
  end.

Definition split_step (choose : gset point -> point) (l : nat) (h : heap)
    : outcome (rect * heap) :=
  '(p, h) ← set_pop_at choose l h;
  let '(x0, y0) := p in
  let width := 1 in
  let height := 1 in
  s ← get_set l h;
  '(width, h) ← grow_width (S (size s)) l x0 y0 width h;
  '(height, h) ←
    grow_height l (range (y0 + 1) (y0 + height + 1)) x0 width height h;
  Ret ((x0, y0, width, height), h).

Fixpoint split_loop (choose : gset point -> point) (n : nat) (l : nat)
    (h : heap) (rects : list rect) : outcome (list rect * heap) :=
  match n with
  | O => Timeout
  | S n' =>
      s ← get_set l h;
      if decide (s = ∅) then Ret (rects, h)
      else
        '(r, h') ← split_step choose l h;
        split_loop choose n' l h' (rects ++ [r])
  end.

(** [points] is the reference the caller passes; the local name is
    rebound to the new set and the loop works on that. *)
Definition split_into_rects (choose : gset point -> point) (points : nat)
    (h : heap) : outcome (list rect * heap) :=
  '(points', h) ← new_set points h;
  s ← get_set points' h;
  split_loop choose (S (size s)) points' h [].
End Store.

(** A computation on the contents of the set behind [l], as a
    computation on the store. *)
Definition in_store {A : Type} (l : nat) (h : gmap nat Store.obj)
    (m : outcome (A * gset point)) : outcome (A * gmap nat Store.obj) :=
  '(a, s) ← m; Ret (a, <[l := Store.PySet s]> h).

(** ** RegionExtractor: [flood_fill] and [find_color_regions] *)

Section Extractor.
Context {Color : Type} `{EqDecision Color}.

(** What the code uses of a PIL image: [img.size] and the pixel
    access object of [img.load()]. *)
Record image : Type := Image {
  img_size : Z * Z;
  img_pixels : Z -> Z -> Color
}.

Definition in_bounds (img : image) (p : point) : Prop :=
  0 <= p.1 < (img_size img).1 /\ 0 <= p.2 < (img_size img).2.

#[global] Instance in_bounds_dec img p : Decision (in_bounds img p).
Proof. unfold in_bounds. apply _. Defined.

(** [pixels[x, y]]; coordinates outside the image are an
    [IndexError]. *)
Definition getpixel (img : image) (x y : Z) : outcome Color :=
  if decide (in_bounds img (x, y)) then Ret (img_pixels img x y)
  else Raise (Exn IndexError "image index out of range").

(** [while queue: ...] of [flood_fill]; the queue is a list whose
    head is its left end. *)
Fixpoint flood_loop (n : nat) (img : image) (color : Color)
    (queue : list point) (visited : gset point) (region_points : list point)
    : outcome (list point * gset point) :=
  match n with
  | O => Timeout
  | S n' =>
      match queue with
      | [] => Ret (region_points, visited)
      | (x, y) :: queue =>
          let '(width, height) := img_size img in
          if decide ((x, y) ∈ visited) then
            flood_loop n' img color queue visited region_points
          else if decide (x < 0 \/ y < 0 \/ x >= width \/ y >= height) then
            flood_loop n' img color queue visited region_points
          else
            c ← getpixel img x y;
            if decide (c <> color) then
              flood_loop n' img color queue visited region_points
            else
              flood_loop n' img color
                (queue ++ [(x + 1, y); (x - 1, y); (x, y + 1); (x, y - 1)])
                ({[ (x, y) ]} ∪ visited)
                (region_points ++ [(x, y)])
      end
  end.

(** Every pass of the loop either drops a coordinate from the queue or
    marks a new pixel and adds three to the queue's length, so four
    passes per pixel and one per queued coordinate are enough. *)
Definition flood_bound (img : image) : nat :=
  S (S (4 * (Z.to_nat (img_size img).1 * Z.to_nat (img_size img).2))).

(** Returns the region and the [visited] set it has updated. *)
Definition flood_fill (img : image) (start_x start_y : Z) (color : Color)
    (visited : gset point) : outcome (list point * gset point) :=
  flood_loop (flood_bound img) img color [(start_x, start_y)] visited [].

(** The body of the two [for] loops of [find_color_regions]. *)
Definition scan_pixel (img : image) (x y : Z)
    (st : list (Color * list (list point)) * gset point)
    : outcome (list (Color * list (list point)) * gset point) :=
  let '(regions, visited) := st in
  color ← getpixel img x y;
  if decide ((x, y) ∈ visited) then Ret (regions, visited)
  else
    '(region_points, visited) ← flood_fill img x y color visited;
    let regions :=
      if dict_has regions color then regions else dict_set regions color [] in
    l ← dict_get regions color;
    Ret (dict_set regions color (l ++ [region_points]), visited).

Definition find_color_regions (img : image)
    : outcome (list (Color * list (list point))) :=
  let '(width, height) := img_size img in
  '(regions, visited) ←
    for_each (range 0 height)
      (fun y st => for_each (range 0 width) (fun x st => scan_pixel img x y st) st)
      ([], ∅);
  Ret regions.
End Extractor.

Arguments image Color : clear implicits.

(** ** RegionCatalog: [create_rects] and [generate_xml] *)

(** An [xml.etree.ElementTree] element: tag, attributes, children. *)
#[warnings="-register-all"]
Inductive element : Type :=
| Element (tag : string) (attrib : list (string * string))
    (children : list element).

(** What a file holds after the program has opened it for writing: the
    document whose pretty-printed text [prettify_xml] produces, or, when
    the write did not go through, something incomplete. *)
Inductive content : Type :=
| Document (doc : element)
| Incomplete.

(** What the program can change outside itself: the lines it has
    printed and the files it has written. *)
Record world : Type := World {
  stdout : list string;
  files : gmap string content
}.

(** What [with open(path, 'w') as f: f.write(text)] can do: write the
    text, fail to open the file, or fail after the file was opened (and
    so emptied). *)
Inductive write_outcome : Type :=
| Written
| OpenFails (e : exn)
| WriteFails (e : exn).

(** Sequencing of code that acts on the world: an exception ends the
    run in the world reached so far. *)
Definition and_then {A B : Type} (m : outcome A * world)
    (k : A -> world -> outcome B * world) : outcome B * world :=
  match m with
  | (Ret a, w) => k a w
  | (Raise e, w) => (Raise e, w)
  | (Timeout, w) => (Timeout, w)
  end.

(** [f"Region_{idx}"] *)
Definition region_name (idx : nat) : string := "Region_" +:+ pretty idx.

Definition rect_element (r : rect) : element :=
  let '(min_x, min_y, width, height) := r in
  Element "rect"
    [("x", pretty min_x); ("y", pretty min_y);
     ("width", pretty width); ("height", pretty height)] [].

Definition region_element (idx : nat) (rect_list : list rect) : element :=
  Element "region" [("type", "Default"); ("name", region_name idx)]
    (Element "rune" [("name", region_name idx)] []
     :: map rect_element rect_list).

Section Catalog.
Context {Color : Type} `{EqDecision Color}.
Variable choose : gset point -> point.

(** The world outside the program.  [print_error w line] is the
    exception that printing [line] in the world [w] raises, if it raises
    one (standard output closed or full, a character its encoding does
    not have); [write_result w path] is what writing the file at [path]
    does; [load_error img] is the exception that [img.load()] raises, if
    it raises one (PIL reads the pixel data only then, and the file may
    be cut short). *)
Variable print_error : world -> string -> option exn.
Variable write_result : world -> string -> write_outcome.
Variable load_error : image Color -> option exn.

(** [print(line)] *)
Definition print (line : string) (w : world) : outcome unit * world :=
  match print_error w line with
  | Some e => (Raise e, w)
  | None => (Ret tt, World (stdout w ++ [line]) (files w))
  end.

(** [rects[color].extend(split_into_rects(points))] *)
Definition extend_rects (color : Color) (points : list point)
    (rects : list (Color * list rect)) : outcome (list (Color * list rect)) :=
  cur ← dict_get rects color;
  new ← split_into_rects choose points;
  Ret (dict_set rects color (cur ++ new)).

Definition create_rects (regions : list (Color * list (list point)))
    : outcome (list (Color * list rect)) :=
  for_each regions
    (fun '(color, region_list) rects =>
       let rects := dict_set rects color [] in
       for_each region_list (extend_rects color) rects)
    [].

(** The groups [generate_xml] emits, in order: the name of each
    [region] element and the rectangles under it.  [enumerate] counts
    from 1. *)
Definition catalog (rects : list (Color * list rect))
    : list (string * list rect) :=
  imap (fun i '(color, rect_list) => (region_name (S i), rect_list)) rects.

(** The element tree [generate_xml] builds. *)
Definition regions_tree (rects : list (Color * list rect)) : element :=
  Element "ServerRegions" []
    [Element "Facet" [("name", "The World")]
       (imap (fun i '(color, rect_list) => region_element (S i) rect_list)
          rects)].

Definition generate_xml (rects : list (Color * list rect))
    (output_file : string) (w : world) : outcome unit * world :=
  match write_result w output_file with
  | Written =>
      (Ret tt,
       World (stdout w)
         (<[output_file := Document (regions_tree rects)]> (files w)))
  | OpenFails e => (Raise e, w)
  | WriteFails e =>
      (Raise e, World (stdout w) (<[output_file := Incomplete]> (files w)))
  end.

(** ** Loading the bitmap and [main] *)

(** [Image.open] belongs to PIL: it gives an image or raises. *)
Variable Image_open : string -> image Color + exn.

(** The [try] block of [load_bmp]. *)
Definition load_bmp_try (file_path : string) : outcome (image Color) :=
  match Image_open file_path with
  | inl img =>
      if decide (img_size img <> (6144, 4096)) then
        Raise (Exn ValueError
                 ("Image dimensions are " +:+ repr_point (img_size img)
                  +:+ ", but expected 6144x4096."))
      else Ret img
  | inr e => Raise e
  end.

(** [load_bmp] with its [except Exception] handler; [None] is Python's
    [None].  The handler catches what derives from [Exception]; what the
    [print] inside the handler raises leaves the function. *)
Definition load_bmp (file_path : string) (w : world)
    : outcome (option (image Color)) * world :=
  match load_bmp_try file_path with
  | Ret img => (Ret (Some img), w)
  | Raise e =>
      if is_Exception e then
        and_then (print ("Error loading image: " +:+ exn_msg e) w)
          (fun _ w => (Ret None, w))
      else (Raise e, w)
  | Timeout => (Timeout, w)
  end.

(** [img.load()], the first use [find_color_regions] makes of the
    pixels of the image: it gives the decoded grid or raises. *)
Definition load_pixels (img : image Color) : outcome (image Color) :=
  match load_error img with
  | Some e => Raise e
  | None => Ret img
  end.

Definition main (bmp_file output_file : string) (w : world)
    : outcome unit * world :=
  and_then (load_bmp bmp_file w) (fun img w =>
    match img with
    | None => (Ret tt, w)
    | Some img =>
        and_then
          (img ← load_pixels img;
           regions ← find_color_regions img;
           create_rects regions, w)
          (fun rects w =>
             and_then (generate_xml rects output_file w) (fun _ w =>
               print ("Regions.xml generated successfully at "
                      +:+ output_file) w))
    end).
End Catalog.

(** ** Coverage *)

(** How many rectangles of a list cover a coordinate. *)
Definition cover_count (rects : list rect) (p : point) : nat :=
  length (filter (fun r => covers r p) rects).

(** ** Connectivity in the pixel grid *)

Section Connectivity.
Context {Color : Type} `{EqDecision Color}.

Definition color_at (img : image Color) (p : point) : Color :=
  img_pixels img p.1 p.2.

(** Two cells that share an edge. *)
Definition adjacent (p q : point) : Prop :=
  q = (p.1 + 1, p.2) \/ q = (p.1 - 1, p.2)
  \/ q = (p.1, p.2 + 1) \/ q = (p.1, p.2 - 1).

(** A walk from one cell to another by steps between adjacent cells, all
    of its cells in [S]. *)
Inductive path_in (S : point -> Prop) : point -> point -> Prop :=
| path_refl p : S p -> path_in S p p
| path_step p q r : path_in S p q -> adjacent q r -> S r -> path_in S p r.

(** 4-connected through pixels of the colour of [p]. *)
Definition same_color_connected (img : image Color) (p q : point) : Prop :=
  path_in (fun r => in_bounds img r /\ color_at img r = color_at img p) p q.

(** A component of colour [c]: no coordinate twice, all in the image and
    of colour [c], each reachable from each other through the component,
    and no pixel of colour [c] next to it left out. *)
Record component_ok (img : image Color) (c : Color) (comp : list point)
    : Prop := {
  comp_nodup : NoDup comp;
  comp_color : forall p, p ∈ comp -> in_bounds img p /\ color_at img p = c;
  comp_connected :
    forall p q, p ∈ comp -> q ∈ comp -> path_in (fun r => r ∈ comp) p q;
  comp_maximal :
    forall p q, p ∈ comp -> adjacent p q -> in_bounds img q ->
                color_at img q = c -> q ∈ comp
}.

(** In how many of the components of a list a coordinate lies. *)
Definition member_count (comps : list (list point)) (p : point) : nat :=
  length (filter (fun comp : list point => p ∈ comp) comps).

(** In how many components, over all colours, a coordinate lies. *)
Definition component_count (regions : list (Color * list (list point)))
    (p : point) : nat :=
  sum_list_with (fun e : Color * list (list point) => member_count e.2 p)
    regions.

(** A set of visited pixels that is a union of whole components. *)
Definition closed_set (img : image Color) (V : gset point) : Prop :=
  forall p, p ∈ V ->
    in_bounds img p
    /\ forall q, adjacent p q -> in_bounds img q ->
                 color_at img q = color_at img p -> q ∈ V.

(** The invariant of the loop of [flood_fill], started at [start] with
    the visited set [V0]. *)
Record flood_inv (img : image Color) (start : point) (c : Color)
    (V0 : gset point) (queue : list point) (visited : gset point)
    (region : list point) : Prop := {
  fi_visited : forall p, p ∈ visited <-> p ∈ V0 \/ p ∈ region;
  fi_nodup : NoDup region;
  fi_fresh : forall p, p ∈ region -> p ∉ V0;
  fi_color : forall p, p ∈ region -> in_bounds img p /\ color_at img p = c;
  fi_path : forall p, p ∈ region -> path_in (fun r => r ∈ region) start p;
  fi_frontier :
    forall p q, p ∈ region -> adjacent p q ->
      q ∈ visited \/ q ∈ queue \/ ~ in_bounds img q \/ color_at img q <> c;
  fi_queue :
    forall q, q ∈ queue -> q = start \/ exists p, p ∈ region /\ adjacent p q;
  fi_start : start ∈ queue \/ start ∈ region
}.

(** The invariant of the scan of [find_color_regions]: the visited set
    is a union of whole components, the dictionary has no key twice,
    the visited pixels are the ones that lie in a component, each in
    one, and every component recorded under a colour is a component of
    that colour. *)
Record scan_inv (img : image Color)
    (regions : list (Color * list (list point))) (visited : gset point)
    : Prop := {
  si_closed : closed_set img visited;
  si_keys : NoDup (dict_keys regions);
  si_count :
    forall p, component_count regions p
              = if decide (p ∈ visited) then 1%nat else 0%nat;
  si_comps :
    Forall (fun e : Color * list (list point) =>
              Forall (component_ok img e.1) e.2) regions
}.

(** The pixels of the image as a set. *)
Definition grid_set (img : image Color) : gset point :=
  list_to_set (grid_list (img_size img).1 (img_size img).2).
End Connectivity.

(** The keys are in the order in which their colours are first seen in
    the list of scanned pixels: of two keys, the earlier one has a
    scanned pixel such that the later colour occurs neither before that
    pixel nor at it. *)
Definition first_seen_order {Color : Type} (img : image Color)
    (scanned : list point) (keys : list Color) : Prop :=
  forall (i j : nat) (c1 c2 : Color),
    (i < j)%nat -> keys !! i = Some c1 -> keys !! j = Some c2 ->
    exists l1 p1 l2,
      scanned = l1 ++ p1 :: l2
      /\ color_at img p1 = c1
      /\ forall q, q ∈ l1 ++ [p1] -> color_at img q <> c2.

(** The invariant of the scan about its keys: they are in first-seen
    order, each is the colour of a scanned pixel, and the colour of
    every scanned pixel is a key. *)
Record key_order {Color : Type} (img : image Color) (scanned : list point)
    (keys : list Color) : Prop := {
  ko_order : first_seen_order img scanned keys;
  ko_seen : forall c, c ∈ keys -> exists p, p ∈ scanned /\ color_at img p = c;
  ko_keys : forall p, p ∈ scanned -> color_at img p ∈ keys
}.

(** No colour is recorded without a component and no component is
    empty. *)
Definition regions_nonempty {Color : Type}
    (regions : list (Color * list (list point))) : Prop :=
  Forall (fun e : Color * list (list point) =>
            e.2 <> [] /\ Forall (fun comp : list point => comp <> []) e.2)
    regions.

(** ** Groups of the catalog *)

(** All rectangles of a catalog, group after group. *)
Definition catalog_rects (cat : list (string * list rect)) : list rect :=
  concat cat.*2.

(** Two coordinates lie in one group: rectangles of one group cover
    them. *)
Definition same_group (cat : list (string * list rect)) (p q : point) : Prop :=
  exists name rl,
    (name, rl) ∈ cat
    /\ (exists r, r ∈ rl /\ covers r p) /\ (exists r, r ∈ rl /\ covers r q).

(** The rectangles of a colour against the components of that colour:
    same key, and a coordinate is covered as often as it lies in a
    component. *)
Definition group_ok {Color : Type} (e : Color * list (list point))
    (g : Color * list rect) : Prop :=
  e.1 = g.1 /\ forall p, cover_count g.2 p = member_count e.2 p.

(** ** [bounding_rect] *)

(** Python's [min] and [max] of a sequence; an empty sequence is a
    [ValueError]. *)
Definition py_min (xs : list Z) : outcome Z :=
  match xs with
  | [] => Raise (Exn ValueError "min() arg is an empty sequence")
  | x :: xs' => Ret (foldl Z.min x xs')
  end.

Definition py_max (xs : list Z) : outcome Z :=
  match xs with
  | [] => Raise (Exn ValueError "max() arg is an empty sequence")
  | x :: xs' => Ret (foldl Z.max x xs')
  end.

Definition bounding_rect (points : list point) : outcome rect :=
  min_x ← py_min points.*1;
  max_x ← py_max points.*1;
  min_y ← py_min points.*2;
  max_y ← py_max points.*2;
  Ret (min_x, min_y, max_x - min_x + 1, max_y - min_y + 1).

(** ** Concrete inputs *)

(** A pick rule for [set.pop]: the lowest row first and in it the
    leftmost coordinate. *)
Definition point_le (p q : point) : Prop :=
  p.2 < q.2 \/ (p.2 = q.2 /\ p.1 <= q.1).

#[global] Instance point_le_dec p q : Decision (point_le p q).
Proof. unfold point_le. apply _. Defined.

Definition lowest (d : point) (l : list point) : point :=
  foldr (fun p acc => if decide (point_le p acc) then p else acc) d l.

Definition choose_low (s : gset point) : point :=
  lowest (hd (0, 0) (elements s)) (elements s).

(** Scenario A: a 3 by 3 image of one colour. *)
Definition img3 : image string := Image (3, 3) (fun _ _ => "A"%string).

(** Scenario C: a 10 by 10 image, colour A at (0,0) and (5,5) and
    colour B everywhere else. *)
Definition img10 : image string :=
  Image (10, 10)
    (fun x y =>
       if decide ((x, y) = (0, 0) \/ (x, y) = (5, 5)) then "A"%string
       else "B"%string).

(** The one component of [img3], in the order the flood fill records
    it. *)
Definition comp3 : list point :=
  [(0, 0); (1, 0); (0, 1); (2, 0); (1, 1); (0, 2); (2, 1); (1, 2); (2, 2)].

(** A bitmap of the wrong size behind every path. *)
Definition open_small (path : string) : image string + exn := inl img3.

(** A world in which printing, writing and loading go through. *)
Definition print_ok (w : world) (line : string) : option exn := None.

Definition write_ok (w : world) (path : string) : write_outcome := Written.

Definition load_ok (img : image string) : option exn := None.

(** Standard output is a full device and not buffered: every [print]
    raises. *)
Definition print_full (w : world) (line : string) : option exn :=
  Some (Exn OSError "[Errno 28] No space left on device").

(** A store with the component of [img3] as a list behind reference 0. *)
Definition heap3 : gmap nat Store.obj := {[ 0%nat := Store.PyList comp3 ]}.

(** A bitmap of the expected size, of one colour, behind every path. *)
Definition img_full : image string :=
  Image (6144, 4096) (fun _ _ => "A"%string).

Definition open_full (path : string) : image string + exn := inl img_full.

(** A store with a set object behind reference 0. *)
Definition heap_set : gmap nat Store.obj :=
  {[ 0%nat := Store.PySet (list_to_set comp3) ]}.

(** An image of width 0. *)
Definition img_empty : image string := Image (0, 5) (fun _ _ => "A"%string).

(** * Properties *)

(** ** Outcomes and loops *)

Lemma bind_Ret {A B : Type} (f : A -> outcome B) (a : A) :
  (Ret a ≫= f) = f a.
Proof. reflexivity. Qed.

Lemma pair_eq_iff (a b c d : Z) : (a, b) = (c, d) <-> a = c /\ b = d.
Proof. split; [intros [= -> ->] | intros [-> ->]]; done. Qed.

Lemma range_single (a b : Z) : b = a + 1 -> range a b = [a].
Proof.
  intros ->. unfold range. replace (a + 1 - a) with 1 by lia. reflexivity.
Qed.

Lemma elem_of_range (a b x : Z) : x ∈ range a b <-> a <= x < b.
Proof. unfold range. rewrite elem_of_seqZ. lia. Qed.

Lemma NoDup_range (a b : Z) : NoDup (range a b).
Proof. apply NoDup_seqZ. Qed.

(** ** Sizes of coordinate sets *)

Lemma size_remove (p : point) (s : gset point) :
  p ∈ s -> S (size (s ∖ {[ p ]})) = size s.
Proof.
  intros Hp. rewrite size_difference by set_solver.
  rewrite size_singleton.
  assert (size s <> 0%nat) by (intros E; apply size_empty_inv in E; set_solver).
  lia.
Qed.

Lemma size_list_to_set_le (points : list point) :
  (size (list_to_set points : gset point) <= length points)%nat.
Proof.
  induction points as [|p points IH].
  - rewrite list_to_set_nil, size_empty. done.
  - rewrite list_to_set_cons, size_union_alt, size_singleton.
    assert (size (list_to_set points ∖ {[p]} : gset point)
            <= size (list_to_set points : gset point))%nat.
    { apply subseteq_size. intros q Hq.
      by apply elem_of_difference in Hq as [Hq _]. }
    simpl. lia.
Qed.
(** ** Counting covers *)

Lemma cover_count_nil p : cover_count [] p = 0%nat.
Proof. reflexivity. Qed.

Lemma cover_count_cons r rs p :
  cover_count (r :: rs) p
  = ((if decide (covers r p) then 1 else 0) + cover_count rs p)%nat.
Proof.
  unfold cover_count. rewrite filter_cons.
  repeat case_decide; simpl; done.
Qed.

Lemma cover_count_app rs1 rs2 p :
  cover_count (rs1 ++ rs2) p = (cover_count rs1 p + cover_count rs2 p)%nat.
Proof. unfold cover_count. by rewrite filter_app, length_app. Qed.

Lemma cover_count_pos rs p :
  (0 < cover_count rs p)%nat <-> exists r, r ∈ rs /\ covers r p.
Proof.
  induction rs as [|r rs IH].
  - rewrite cover_count_nil. split; [lia | intros (r & Hr & _)].
    by apply elem_of_nil in Hr.
  - rewrite cover_count_cons. split.
    + destruct (decide (covers r p)) as [Hc|Hc].
      * intros _. exists r. split; [left | done].
      * intros Hpos. simpl in Hpos. apply IH in Hpos as (r' & Hr' & Hc').
        exists r'. split; [by right | done].
    + intros (r' & Hr' & Hc'). apply elem_of_cons in Hr' as [->|Hr'].
      * rewrite decide_True by done. lia.
      * assert (0 < cover_count rs p)%nat by (apply IH; eauto). lia.
Qed.

Lemma cover_count_zero rs p :
  cover_count rs p = 0%nat <-> forall r, r ∈ rs -> ~ covers r p.
Proof.
  split.
  - intros Hz r Hr Hc.
    assert (0 < cover_count rs p)%nat by (apply cover_count_pos; eauto). lia.
  - intros Hn. destruct (cover_count rs p) eqn:E; [done|].
    assert (0 < cover_count rs p)%nat as Hpos by lia.
    apply cover_count_pos in Hpos as (r & Hr & Hc). by destruct (Hn r Hr).
Qed.

(** Two places of a list whose rectangles cover one coordinate are the
    same place when the coordinate is covered at most once. *)
Lemma cover_count_le_1 rs p i j r1 r2 :
  (cover_count rs p <= 1)%nat ->
  rs !! i = Some r1 -> rs !! j = Some r2 ->
  covers r1 p -> covers r2 p -> i = j.
Proof.
  revert i j. induction rs as [|r rs IH]; intros i j Hle Hi Hj H1 H2.
  - done.
  - rewrite cover_count_cons in Hle.
    destruct i as [|i], j as [|j]; simpl in Hi, Hj.
    + done.
    + injection Hi as ->. rewrite decide_True in Hle by done.
      assert (0 < cover_count rs p)%nat.
      { apply cover_count_pos. exists r2. split; [|done].
        by eapply list_elem_of_lookup_2. }
      lia.
    + injection Hj as ->. rewrite decide_True in Hle by done.
      assert (0 < cover_count rs p)%nat.
      { apply cover_count_pos. exists r1. split; [|done].
        by eapply list_elem_of_lookup_2. }
      lia.
    + f_equal. apply IH; try done. lia.
Qed.

(** ** The rectangle decomposition *)

Section DecomposerProofs.
Variable choose : gset point -> point.
Hypothesis choose_in : forall s : gset point, s <> ∅ -> choose s ∈ s.

Lemma set_pop_spec (s : gset point) :
  s <> ∅ -> set_pop choose s = Ret (choose s, s ∖ {[ choose s ]}).
Proof. intros Hs. unfold set_pop. by rewrite decide_False. Qed.

(** The width loop removes the run to the right of the origin and stops
    at the first missing coordinate. *)
Lemma grow_width_spec (n : nat) (x0 y0 : Z) :
  forall (width : Z) (s : gset point),
    (size s < n)%nat ->
    exists width' s',
      grow_width n x0 y0 width s = Ret (width', s')
      /\ width <= width'
      /\ (forall p, p ∈ s' <->
                    p ∈ s /\ ~ (p.2 = y0 /\ x0 + width <= p.1 < x0 + width'))
      /\ (forall x, x0 + width <= x < x0 + width' -> (x, y0) ∈ s)
      /\ (x0 + width', y0) ∉ s'.
Proof.
  induction n as [|n IH]; intros width s Hn; [lia|].
  simpl. destruct (decide ((x0 + width, y0) ∈ s)) as [Hin|Hout].
  - unfold set_remove. rewrite decide_True by done. rewrite bind_Ret.
    destruct (IH (width + 1) (s ∖ {[ (x0 + width, y0) ]}))
      as (w' & s' & Hrun & Hle & Hs' & Hrow & Hstop).
    { pose proof (size_remove _ _ Hin). lia. }
    exists w', s'. split; [done|]. split; [lia|]. split; [|split; [|done]].
    + intros [px py]. rewrite Hs', elem_of_difference, elem_of_singleton.
      rewrite pair_eq_iff. simpl. split.
      * intros [[Hp Hne] Hrun']. split; [done|]. lia.
      * intros [Hp Hrun']. split; [split; [done|]|]; lia.
    + intros x Hx. destruct (decide (x = x0 + width)) as [->|Hne]; [done|].
      assert ((x, y0) ∈ s ∖ {[ (x0 + width, y0) ]}) as Hx'
        by (apply Hrow; lia).
      by apply elem_of_difference in Hx' as [Hx' _].
  - exists width, s. split; [done|]. split; [lia|].
    split; [|split; [|done]].
    + intros p. split; [intros Hp; split; [done|lia] | intros [Hp _]; done].
    + intros x Hx. lia.
Qed.

Lemma row_present_spec (xs : list Z) (y : Z) (s : gset point) :
  row_present xs y s = true <-> forall x, x ∈ xs -> (x, y) ∈ s.
Proof.
  induction xs as [|x xs IH]; simpl.
  - split; [intros _ x Hx; by apply elem_of_nil in Hx | done].
  - destruct (decide ((x, y) ∈ s)) as [Hin|Hout].
    + rewrite IH. split.
      * intros Hall x' Hx'. apply elem_of_cons in Hx' as [->|Hx']; auto.
      * intros Hall x' Hx'. apply Hall. by right.
    + split; [done|]. intros Hall. destruct Hout. apply Hall. left.
Qed.

(** Removing a row that is present raises nothing and removes exactly
    that row. *)
Lemma remove_row_spec (xs : list Z) (y : Z) :
  forall s : gset point,
    NoDup xs -> (forall x, x ∈ xs -> (x, y) ∈ s) ->
    exists s',
      remove_row xs y s = Ret s'
      /\ forall p, p ∈ s' <-> p ∈ s /\ ~ (p.2 = y /\ p.1 ∈ xs).
Proof.
  induction xs as [|x xs IH]; intros s Hnd Hall.
  - exists s. split; [done|]. intros p. split; [|tauto].
    intros Hp. split; [done|]. intros [_ Hx]. by apply elem_of_nil in Hx.
  - apply NoDup_cons in Hnd as [Hx Hnd]. unfold remove_row. simpl.
    unfold set_remove. rewrite decide_True by (apply Hall; left).
    rewrite bind_Ret.
    destruct (IH (s ∖ {[ (x, y) ]}) Hnd) as (s' & Hrun & Hs').
    { intros x' Hx'. apply elem_of_difference. split; [apply Hall; by right|].
      rewrite elem_of_singleton, pair_eq_iff. intros [-> _]. done. }
    exists s'. split; [done|].
    intros [px py]. rewrite Hs', elem_of_difference, elem_of_singleton.
    rewrite pair_eq_iff, elem_of_cons. simpl. tauto.
Qed.

(** What one pass of the outer loop does to a non-empty set: it emits a
    rectangle at the popped origin, of width at least 1 and height 1 or
    2, whose coordinates were all in the set, and removes exactly
    those. *)
Lemma split_step_spec (s : gset point) :
  s <> ∅ ->
  exists width height s',
    split_step choose s
    = Ret (((choose s).1, (choose s).2, width, height), s')
    /\ 1 <= width
    /\ 1 <= height <= 2
    /\ (forall p, p ∈ s' <->
          p ∈ s /\ ~ covers ((choose s).1, (choose s).2, width, height) p)
    /\ (forall p, covers ((choose s).1, (choose s).2, width, height) p -> p ∈ s).
Proof.
  intros Hs. unfold split_step. rewrite set_pop_spec by done.
  rewrite bind_Ret. pose proof (choose_in s Hs) as Hin.
  destruct (choose s) as [x0 y0] eqn:Hc. cbv beta iota zeta. cbn [fst snd].
  set (s1 := s ∖ {[ (x0, y0) ]}).
  destruct (grow_width_spec (S (size s1)) x0 y0 1 s1)
    as (w & s2 & Hw & Hle & Hs2 & Hrow & Hstop); [lia|].
  rewrite Hw, bind_Ret. rewrite (range_single (y0 + 1)) by lia.
  assert (forall p, p ∈ s2 <-> p ∈ s /\ ~ covers (x0, y0, w, 1) p) as Hs2'.
  { intros [px py]. rewrite Hs2. unfold s1.
    rewrite elem_of_difference, elem_of_singleton, pair_eq_iff. simpl.
    split.
    - intros [[Hp Hne] Hrun]. split; [done|]. lia.
    - intros [Hp Hcov]. split; [split; [done|]|]; lia. }
  assert (forall x, x0 <= x < x0 + w -> (x, y0) ∈ s) as Hrow1.
  { intros x Hx. destruct (decide (x = x0)) as [->|Hne]; [done|].
    assert ((x, y0) ∈ s1) as Hx1 by (apply Hrow; lia).
    by apply elem_of_difference in Hx1 as [Hx1 _]. }
  cbn [grow_height]. destruct (row_present (range x0 (x0 + w)) (y0 + 1) s2) eqn:Hrp.
  - pose proof (proj1 (row_present_spec _ _ _) Hrp) as Hall.
    destruct (remove_row_spec (range x0 (x0 + w)) (y0 + 1) s2)
      as (s3 & Hrm & Hs3); [apply NoDup_range | done |].
    rewrite Hrm, !bind_Ret.
    exists w, 2, s3. split; [done|]. split; [lia|]. split; [lia|]. split.
    + intros [px py]. rewrite Hs3, Hs2'. simpl. rewrite elem_of_range.
      split.
      * intros [[Hp Hcov] Hrow']. split; [done|]. lia.
      * intros [Hp Hcov]. split; [split; [done|]|]; lia.
    + intros [px py] [Hx Hy]. simpl in Hx, Hy.
      destruct (decide (py = y0)) as [->|Hne].
      * apply Hrow1. lia.
      * replace py with (y0 + 1) by lia.
        assert ((px, y0 + 1) ∈ s2) as Hin2
          by (apply Hall; apply elem_of_range; lia).
        by apply Hs2' in Hin2 as [Hin2 _].
  - exists w, 1, s2. split; [done|]. split; [lia|]. split; [lia|].
    split; [done|].
    intros [px py] [Hx Hy]. simpl in Hx, Hy.
    replace py with y0 by lia. apply Hrow1. lia.
Qed.

(** Every pass removes the popped origin, so the set shrinks. *)
Lemma split_step_shrinks (s : gset point) :
  s <> ∅ ->
  exists r s',
    split_step choose s = Ret (r, s')
    /\ (choose s ∈ s) /\ (choose s ∉ s') /\ (s' ⊆ s)
    /\ (size s' < size s)%nat.
Proof.
  intros Hs.
  destruct (split_step_spec s Hs) as (w & h & s' & Hrun & Hw & Hh & Hs' & _).
  pose proof (choose_in s Hs) as Hin.
  assert (choose s ∉ s') as Hout.
  { rewrite Hs'. intros [_ Hn]. apply Hn. simpl. lia. }
  assert (s' ⊆ s) as Hsub by (intros p Hp; by apply Hs' in Hp as [Hp _]).
  exists ((choose s).1, (choose s).2, w, h), s'. repeat split; try done.
  apply subset_size. split; [done|]. intros Hrev. apply Hout. by apply Hrev.
Qed.

(** The outer loop, started with more tests than the set has elements:
    it returns, it appends at most one rectangle per element, every
    coordinate of the set is covered once and no other coordinate is
    covered, and the rectangles are at least 1 wide and 1 or 2 high. *)
Lemma split_loop_spec (n : nat) :
  forall (s : gset point) (rects : list rect),
    (size s < n)%nat ->
    exists rs,
      split_loop choose n s rects = Ret (rects ++ rs)
      /\ (length rs <= size s)%nat
      /\ (forall p, cover_count rs p = if decide (p ∈ s) then 1%nat else 0%nat)
      /\ Forall (fun r : rect => 1 <= r.1.2 /\ 1 <= r.2 <= 2) rs.
Proof.
  induction n as [|n IH]; intros s rects Hn; [lia|].
  cbn [split_loop]. destruct (decide (s = ∅)) as [->|Hs].
  - exists []. rewrite app_nil_r. split; [done|]. split; [simpl; lia|].
    split; [|constructor].
    intros p. rewrite cover_count_nil. by rewrite decide_False by set_solver.
  - destruct (split_step_spec s Hs)
      as (w & h & s' & Hrun & Hw & Hh & Hs' & Hcov).
    destruct (split_step_shrinks s Hs) as (r0 & s0 & Hrun0 & _ & _ & _ & Hlt).
    rewrite Hrun in Hrun0. injection Hrun0 as <- <-.
    rewrite Hrun, bind_Ret. cbv beta iota.
    destruct (IH s' (rects ++ [((choose s).1, (choose s).2, w, h)]))
      as (rs & Hloop & Hlen & Hcount & Hshape); [lia|].
    exists (((choose s).1, (choose s).2, w, h) :: rs).
    split; [by rewrite Hloop, <- app_assoc|]. split; [simpl; lia|]. split.
    + intros p. rewrite cover_count_cons, Hcount.
      pose proof (Hs' p) as Hp. pose proof (Hcov p) as Hc.
      repeat case_decide; try done; tauto.
    + constructor; [simpl; lia | done].
Qed.

Lemma split_into_rects_spec (points : list point) :
  exists rects,
    split_into_rects choose points = Ret rects
    /\ (length rects <= size (list_to_set points : gset point))%nat
    /\ (forall p, cover_count rects p = if decide (p ∈ points) then 1%nat else 0%nat)
    /\ Forall (fun r : rect => 1 <= r.1.2 /\ 1 <= r.2 <= 2) rects.
Proof.
  unfold split_into_rects.
  destruct (split_loop_spec (S (size (list_to_set points : gset point)))
              (list_to_set points) []) as (rs & Hrun & Hlen & Hcount & Hshape);
    [lia|].
  exists rs. split; [done|]. split; [done|]. split; [|done].
  intros p. rewrite Hcount.
  destruct (decide (p ∈ points)) as [Hp|Hp].
  - rewrite decide_True; [done|]. by apply elem_of_list_to_set.
  - rewrite decide_False; [done|]. by rewrite elem_of_list_to_set.
Qed.

End DecomposerProofs.

(** ** The decomposition over the object store *)

Section StoreProofs.
Variable choose : gset point -> point.
Implicit Types (h : gmap nat Store.obj) (s : gset point) (l : nat).

Lemma get_set_lookup l h s :
  h !! l = Some (Store.PySet s) -> Store.get_set l h = Ret s.
Proof. intros Hl. unfold Store.get_set. by rewrite Hl. Qed.

Lemma in_store_Ret {A : Type} l h (a : A) s :
  in_store l h (Ret (a, s)) = Ret (a, <[l := Store.PySet s]> h).
Proof. reflexivity. Qed.

Lemma store_set_remove_at l (p : point) s h :
  h !! l = Some (Store.PySet s) ->
  Store.set_remove_at l p h
  = (s' ← set_remove p s; Ret (<[l := Store.PySet s']> h)).
Proof.
  intros Hl. unfold Store.set_remove_at.
  by rewrite (get_set_lookup _ _ _ Hl), bind_Ret.
Qed.

Lemma store_grow_width (n : nat) l (x0 y0 : Z) :
  forall (width : Z) s h,
    h !! l = Some (Store.PySet s) ->
    Store.grow_width n l x0 y0 width h
    = in_store l h (grow_width n x0 y0 width s).
Proof.
  induction n as [|n IH]; intros width s h Hl; [done|].
  cbn [Store.grow_width grow_width]. unfold Store.set_contains.
  rewrite (get_set_lookup _ _ _ Hl), !bind_Ret.
  destruct (decide ((x0 + width, y0) ∈ s)) as [Hin|Hout].
  - rewrite bool_decide_eq_true_2 by done.
    unfold Store.set_remove_at. rewrite (get_set_lookup _ _ _ Hl), bind_Ret.
    unfold set_remove. rewrite decide_True by done. rewrite !bind_Ret.
    rewrite (IH _ (s ∖ {[ (x0 + width, y0) ]})) by apply lookup_insert_eq.
    destruct (grow_width n x0 y0 (width + 1) (s ∖ {[ (x0 + width, y0) ]}))
      as [[w' s']| |]; try done.
    rewrite !in_store_Ret. by rewrite insert_insert_eq.
  - rewrite bool_decide_eq_false_2 by done.
    rewrite in_store_Ret. by rewrite insert_id.
Qed.

Lemma store_row_present l (xs : list Z) (y : Z) s h :
  h !! l = Some (Store.PySet s) ->
  Store.row_present l xs y h = Ret (row_present xs y s).
Proof.
  intros Hl. induction xs as [|x xs IH]; [done|].
  cbn [Store.row_present row_present]. unfold Store.set_contains.
  rewrite (get_set_lookup _ _ _ Hl), !bind_Ret.
  destruct (decide ((x, y) ∈ s)) as [Hin|Hout].
  - by rewrite bool_decide_eq_true_2.
  - by rewrite bool_decide_eq_false_2.
Qed.

Lemma store_remove_row l (xs : list Z) (y : Z) :
  forall s h,
    h !! l = Some (Store.PySet s) ->
    Store.remove_row l xs y h
    = (s' ← remove_row xs y s; Ret (<[l := Store.PySet s']> h)).
Proof.
  induction xs as [|x xs IH]; intros s h Hl.
  - unfold Store.remove_row, remove_row. simpl. by rewrite insert_id.
  - unfold Store.remove_row, remove_row. cbn [for_each].
    rewrite (store_set_remove_at _ _ _ _ Hl).
    destruct (set_remove (x, y) s) as [s1| |]; try done.
    rewrite !bind_Ret.
    fold (Store.remove_row l xs y (<[l := Store.PySet s1]> h)).
    fold (remove_row xs y s1).
    rewrite (IH s1) by apply lookup_insert_eq.
    destruct (remove_row xs y s1) as [s2| |]; try done.
    rewrite !bind_Ret. by rewrite insert_insert_eq.
Qed.

Lemma store_grow_height l (ys : list Z) (x0 width : Z) :
  forall (height : Z) s h,
    h !! l = Some (Store.PySet s) ->
    Store.grow_height l ys x0 width height h
    = in_store l h (grow_height ys x0 width height s).
Proof.
  induction ys as [|y ys IH]; intros height s h Hl.
  - cbn [Store.grow_height grow_height]. rewrite in_store_Ret.
    by rewrite insert_id.
  - cbn [Store.grow_height grow_height].
    rewrite (store_row_present _ _ _ _ _ Hl), bind_Ret.
    destruct (row_present (range x0 (x0 + width)) y s).
    + rewrite (store_remove_row _ _ _ _ _ Hl).
      destruct (remove_row (range x0 (x0 + width)) y s) as [s1| |]; try done.
      rewrite !bind_Ret. rewrite (IH _ s1) by apply lookup_insert_eq.
      destruct (grow_height ys x0 width (height + 1) s1) as [[h' s2]| |];
        try done.
      rewrite !in_store_Ret. by rewrite insert_insert_eq.
    + rewrite in_store_Ret. by rewrite insert_id.
Qed.

Lemma store_split_step l s h :
  h !! l = Some (Store.PySet s) ->
  Store.split_step choose l h = in_store l h (split_step choose s).
Proof.
  intros Hl. unfold Store.split_step, split_step, Store.set_pop_at.
  rewrite (get_set_lookup _ _ _ Hl), bind_Ret.
  destruct (set_pop choose s) as [[[x0 y0] s1]| |]; try done.
  rewrite !bind_Ret. cbv beta iota zeta.
  rewrite (get_set_lookup _ _ s1) by apply lookup_insert_eq.
  rewrite bind_Ret.
  rewrite (store_grow_width _ _ _ _ _ s1) by apply lookup_insert_eq.
  destruct (grow_width (S (size s1)) x0 y0 1 s1) as [[w s2]| |]; try done.
  rewrite in_store_Ret, !bind_Ret. cbv beta iota. rewrite insert_insert_eq.
  rewrite (store_grow_height _ _ _ _ _ s2) by apply lookup_insert_eq.
  destruct (grow_height (range (y0 + 1) (y0 + 1 + 1)) x0 w 1 s2)
    as [[ht s3]| |]; try done.
  rewrite in_store_Ret, !bind_Ret. cbv beta iota.
  rewrite in_store_Ret. by rewrite insert_insert_eq.
Qed.

(** The loop over the store returns what the loop over the set returns
    and leaves the empty set behind the reference. *)
Lemma store_split_loop (n : nat) l :
  forall s h (rects : list rect),
    h !! l = Some (Store.PySet s) ->
    Store.split_loop choose n l h rects
    = (rs ← split_loop choose n s rects;
       Ret (rs, <[l := Store.PySet ∅]> h)).
Proof.
  induction n as [|n IH]; intros s h rects Hl; [done|].
  cbn [Store.split_loop split_loop].
  rewrite (get_set_lookup _ _ _ Hl), bind_Ret.
  destruct (decide (s = ∅)) as [->|Hs].
  - rewrite bind_Ret. by rewrite insert_id.
  - rewrite (store_split_step _ _ _ Hl).
    destruct (split_step choose s) as [[r s1]| |]; try done.
    rewrite in_store_Ret, !bind_Ret. cbv beta iota.
    rewrite (IH s1) by apply lookup_insert_eq.
    destruct (split_loop choose n s1 (rects ++ [r])) as [rs| |]; try done.
    rewrite !bind_Ret. by rewrite insert_insert_eq.
Qed.

(** Called with a reference to a list, the function allocates one new
    object, returns what [split_into_rects] returns on the list's
    elements and changes no object that existed before. *)
Lemma store_split_into_rects l h (items : list point) :
  h !! l = Some (Store.PyList items) ->
  Store.split_into_rects choose l h
  = (rs ← split_into_rects choose items;
     Ret (rs, <[fresh (dom h) := Store.PySet ∅]> h)).
Proof.
  intros Hl. unfold Store.split_into_rects, Store.new_set. rewrite Hl.
  rewrite bind_Ret. cbv beta iota zeta.
  rewrite (get_set_lookup _ _ (list_to_set items)) by apply lookup_insert_eq.
  rewrite bind_Ret.
  rewrite (store_split_loop _ _ (list_to_set items)) by apply lookup_insert_eq.
  unfold split_into_rects.
  destruct (split_loop choose _ _ []) as [rs| |]; try done.
  rewrite !bind_Ret. by rewrite insert_insert_eq.
Qed.
End StoreProofs.

(** ** Paths *)

Lemma adjacent_sym (p q : point) : adjacent p q -> adjacent q p.
Proof.
  destruct p as [px py], q as [qx qy]. unfold adjacent. simpl.
  rewrite !pair_eq_iff. lia.
Qed.

Lemma adjacent_neighbours (x y : Z) (q : point) :
  adjacent (x, y) q
  <-> q ∈ [(x + 1, y); (x - 1, y); (x, y + 1); (x, y - 1)].
Proof.
  unfold adjacent. simpl. rewrite !elem_of_cons, elem_of_nil. tauto.
Qed.

Lemma path_in_mono (S S' : point -> Prop) p q :
  (forall r, S r -> S' r) -> path_in S p q -> path_in S' p q.
Proof.
  intros Hsub Hpath. induction Hpath as [p Hp | p q r Hpq IH Hadj Hr].
  - apply path_refl. auto.
  - eapply path_step; eauto.
Qed.

Lemma path_in_ends (S : point -> Prop) p q : path_in S p q -> S p /\ S q.
Proof.
  intros Hpath. induction Hpath as [p Hp | p q r Hpq IH Hadj Hr]; tauto.
Qed.

Lemma path_in_trans (S : point -> Prop) p q r :
  path_in S p q -> path_in S q r -> path_in S p r.
Proof.
  intros Hpq Hqr. revert Hpq.
  induction Hqr as [q Hq | q r t Hqr IH Hadj Ht]; intros Hpq; [done|].
  apply path_step with r; [by apply IH | done | done].
Qed.

Lemma path_in_sym (S : point -> Prop) p q : path_in S p q -> path_in S q p.
Proof.
  intros Hpath. induction Hpath as [p Hp | p q r Hpq IH Hadj Hr].
  - by apply path_refl.
  - apply path_in_trans with q; [|done].
    apply path_step with r; [by apply path_refl | by apply adjacent_sym |].
    by apply path_in_ends in Hpq as [_ Hq].
Qed.

(** A path that leaves its first cell takes a first step inside [S]. *)
Lemma path_in_first_step (S : point -> Prop) p q :
  path_in S p q -> p = q \/ exists r, adjacent p r /\ S r.
Proof.
  intros Hpath. induction Hpath as [p Hp | p q r Hpq IH Hadj Hr]; [by left|].
  destruct IH as [->|IH]; right; eauto.
Qed.

(** ** The pixel grid *)

Lemma for_each_app {A S : Type} (xs ys : list A) (body : A -> S -> outcome S)
    (s : S) :
  for_each (xs ++ ys) body s = (s' ← for_each xs body s; for_each ys body s').
Proof.
  revert s. induction xs as [|x xs IH]; intros s; [done|].
  cbn [for_each app]. destruct (body x s) as [s1| |]; try done.
  rewrite !bind_Ret. apply IH.
Qed.

(** A loop invariant for [for_each]: [I done s] holds of the elements
    already handled and the state reached. *)
Lemma for_each_inv {A S : Type} (I : list A -> S -> Prop) (xs : list A)
    (body : A -> S -> outcome S) (s : S) :
  I [] s ->
  (forall done x rest s,
      xs = done ++ x :: rest -> I done s ->
      exists s', body x s = Ret s' /\ I (done ++ [x]) s') ->
  exists s', for_each xs body s = Ret s' /\ I xs s'.
Proof.
  intros Hinit Hstep.
  assert (forall rest done s,
            xs = done ++ rest -> I done s ->
            exists s', for_each rest body s = Ret s' /\ I xs s') as Hgen.
  { induction rest as [|x rest IH]; intros done s0 Hxs Hdone.
    - exists s0. rewrite app_nil_r in Hxs. by subst.
    - destruct (Hstep done x rest s0 Hxs Hdone) as (s1 & Hrun & Hnext).
      cbn [for_each]. rewrite Hrun, bind_Ret.
      apply (IH (done ++ [x])); [|done]. by rewrite <- app_assoc. }
  by apply (Hgen xs []).
Qed.

Lemma elem_of_grid_list (w h : Z) (p : point) :
  p ∈ grid_list w h <-> 0 <= p.1 < w /\ 0 <= p.2 < h.
Proof.
  unfold grid_list. rewrite list_elem_of_bind. split.
  - intros (y & Hp & Hy). apply list_elem_of_bind in Hp as (x & Hp & Hx).
    apply list_elem_of_singleton in Hp as ->. simpl.
    apply elem_of_range in Hx, Hy. lia.
  - intros [Hx Hy]. exists p.2. split; [|apply elem_of_range; lia].
    apply list_elem_of_bind. exists p.1. split; [|apply elem_of_range; lia].
    destruct p. simpl. apply list_elem_of_singleton. done.
Qed.

Lemma length_range (a b : Z) : length (range a b) = Z.to_nat (b - a).
Proof. unfold range. apply length_seqZ. Qed.

Lemma length_grid_list (w h : Z) :
  length (grid_list w h) = (Z.to_nat h * Z.to_nat w)%nat.
Proof.
  unfold grid_list.
  assert (forall ys : list Z,
            length (ys ≫= fun y => range 0 w ≫= fun x => [(x, y)])
            = (length ys * Z.to_nat w)%nat) as Hlen.
  { induction ys as [|y ys IH]; [done|].
    rewrite bind_cons, length_app, IH.
    assert (forall xs : list Z,
              length (xs ≫= fun x => [(x, y)]) = length xs) as Hrow.
    { induction xs as [|x xs IHx]; [done|].
      rewrite bind_cons, length_app, IHx. done. }
    rewrite Hrow, length_range. simpl. f_equal. f_equal. lia. }
  rewrite Hlen, length_range. f_equal. f_equal. lia.
Qed.

(** ** Dictionaries *)

Section DictProofs.
Context {K V : Type} `{EqDecision K}.
Implicit Types (d : list (K * V)) (k : K) (v : V).

Lemma dict_has_true d k : dict_has d k = true <-> k ∈ dict_keys d.
Proof. unfold dict_has. apply bool_decide_eq_true. Qed.

Lemma dict_has_false d k : dict_has d k = false <-> k ∉ dict_keys d.
Proof. unfold dict_has. apply bool_decide_eq_false. Qed.

Lemma dict_keys_app d1 d2 : dict_keys (d1 ++ d2) = dict_keys d1 ++ dict_keys d2.
Proof. unfold dict_keys. apply fmap_app. Qed.

Lemma dict_keys_cons k v d : dict_keys ((k, v) :: d) = k :: dict_keys d.
Proof. reflexivity. Qed.

(** A key that is present splits the dictionary at its entry. *)
Lemma dict_get_in d k :
  k ∈ dict_keys d ->
  exists d1 v d2,
    d = d1 ++ (k, v) :: d2 /\ (k ∉ dict_keys d1) /\ dict_get d k = Ret v.
Proof.
  induction d as [|[k' v'] d IH]; intros Hk.
  - by apply elem_of_nil in Hk.
  - rewrite dict_keys_cons in Hk. cbn [dict_get].
    destruct (decide (k = k')) as [<-|Hne].
    + exists [], v', d. split; [done|]. split; [|done]. apply not_elem_of_nil.
    + apply elem_of_cons in Hk as [Hk|Hk]; [done|].
      destruct (IH Hk) as (d1 & v & d2 & -> & Hd1 & Hget).
      exists ((k', v') :: d1), v, d2. split; [done|]. split; [|done].
      rewrite dict_keys_cons. intros Hin.
      apply elem_of_cons in Hin as [Hin|Hin]; done.
Qed.

Lemma dict_get_at d1 k v d2 :
  k ∉ dict_keys d1 -> dict_get (d1 ++ (k, v) :: d2) k = Ret v.
Proof.
  induction d1 as [|[k' v'] d1 IH]; intros Hk; cbn [dict_get app].
  - by rewrite decide_True.
  - rewrite dict_keys_cons in Hk. apply not_elem_of_cons in Hk as [Hne Hk].
    rewrite decide_False by done. by apply IH.
Qed.

Lemma dict_set_at d1 k v d2 v' :
  k ∉ dict_keys d1 ->
  dict_set (d1 ++ (k, v) :: d2) k v' = d1 ++ (k, v') :: d2.
Proof.
  induction d1 as [|[k1 v1] d1 IH]; intros Hk; cbn [dict_set app].
  - by rewrite decide_True.
  - rewrite dict_keys_cons in Hk. apply not_elem_of_cons in Hk as [Hne Hk].
    rewrite decide_False by done. by rewrite IH.
Qed.

Lemma dict_set_new d k v : k ∉ dict_keys d -> dict_set d k v = d ++ [(k, v)].
Proof.
  induction d as [|[k1 v1] d IH]; intros Hk; cbn [dict_set app]; [done|].
  rewrite dict_keys_cons in Hk. apply not_elem_of_cons in Hk as [Hne Hk].
  rewrite decide_False by done. by rewrite IH.
Qed.
End DictProofs.

(** ** The flood fill *)

Section ExtractorProofs.
Context {Color : Type} `{EqDecision Color}.
Variable img : image Color.

Lemma elem_of_grid_set (p : point) : p ∈ grid_set img <-> in_bounds img p.
Proof.
  unfold grid_set, in_bounds. by rewrite elem_of_list_to_set, elem_of_grid_list.
Qed.

Lemma size_grid_set :
  (size (grid_set img)
   <= Z.to_nat (img_size img).1 * Z.to_nat (img_size img).2)%nat.
Proof.
  unfold grid_set. etrans; [apply size_list_to_set_le|].
  rewrite length_grid_list. lia.
Qed.

(** Marking a pixel takes one cell from the unvisited ones. *)
Lemma size_unvisited (p : point) (visited : gset point) :
  in_bounds img p -> p ∉ visited ->
  S (size (grid_set img ∖ ({[ p ]} ∪ visited)))
  = size (grid_set img ∖ visited).
Proof.
  intros Hin Hout.
  replace (grid_set img ∖ ({[ p ]} ∪ visited))
    with ((grid_set img ∖ visited) ∖ {[ p ]}).
  - apply size_remove. apply elem_of_difference.
    split; [by apply elem_of_grid_set | done].
  - apply set_eq. intros q.
    rewrite !elem_of_difference, elem_of_union, elem_of_singleton. tauto.
Qed.

Section Flood.
Variables (start : point) (c : Color) (V0 : gset point).
Hypothesis start_in : in_bounds img start.
Hypothesis start_color : color_at img start = c.
Hypothesis start_fresh : start ∉ V0.

(** A coordinate the loop drops: already visited, outside the image or
    of another colour. *)
Lemma flood_inv_skip (p : point) queue visited region :
  flood_inv img start c V0 (p :: queue) visited region ->
  p ∈ visited \/ ~ in_bounds img p \/ color_at img p <> c ->
  flood_inv img start c V0 queue visited region.
Proof.
  intros [Hvis Hnd Hfresh Hcol Hpath Hfront Hqueue Hstart] Hskip.
  split; try done.
  - intros p' q Hp' Hadj.
    destruct (Hfront p' q Hp' Hadj) as [Hq|[Hq|Hq]]; [by left| |by right; right].
    apply elem_of_cons in Hq as [->|Hq]; [|by right; left].
    destruct Hskip as [Hs|[Hs|Hs]]; [by left | by right; right; left |].
    by right; right; right.
  - intros q Hq. apply Hqueue. by right.
  - destruct Hstart as [Hs|Hs]; [|by right].
    apply elem_of_cons in Hs as [->|Hs]; [|by left].
    destruct Hskip as [Hs|[Hs|Hs]]; try done.
    apply Hvis in Hs as [Hs|Hs]; [done | by right].
Qed.

(** A coordinate the loop accepts. *)
Lemma flood_inv_visit (x y : Z) queue visited region :
  flood_inv img start c V0 ((x, y) :: queue) visited region ->
  (x, y) ∉ visited -> in_bounds img (x, y) -> color_at img (x, y) = c ->
  flood_inv img start c V0
    (queue ++ [(x + 1, y); (x - 1, y); (x, y + 1); (x, y - 1)])
    ({[ (x, y) ]} ∪ visited) (region ++ [(x, y)]).
Proof.
  intros [Hvis Hnd Hfresh Hcol Hpath Hfront Hqueue Hstart] Hnew Hin Hc.
  assert ((x, y) ∉ region) as Hnotin.
  { intros Hr. apply Hnew. apply Hvis. by right. }
  assert ((x, y) ∉ V0) as HnotV0.
  { intros Hr. apply Hnew. apply Hvis. by left. }
  split.
  - intros p. rewrite elem_of_union, elem_of_singleton, Hvis, elem_of_app.
    rewrite list_elem_of_singleton. tauto.
  - apply NoDup_app. split; [done|]. split; [|apply NoDup_singleton].
    intros p Hp Hp'. apply list_elem_of_singleton in Hp' as ->. done.
  - intros p Hp. apply elem_of_app in Hp as [Hp|Hp]; [by apply Hfresh|].
    by apply list_elem_of_singleton in Hp as ->.
  - intros p Hp. apply elem_of_app in Hp as [Hp|Hp]; [by apply Hcol|].
    by apply list_elem_of_singleton in Hp as ->.
  - intros p Hp. apply elem_of_app in Hp as [Hp|Hp].
    + eapply path_in_mono; [|by apply Hpath].
      intros r Hr. apply elem_of_app. by left.
    + apply list_elem_of_singleton in Hp as ->.
      destruct (Hqueue (x, y)) as [->|(p0 & Hp0 & Hadj)]; [left | |].
      * apply path_refl. apply elem_of_app. right. left.
      * apply path_step with p0; [|done|apply elem_of_app; right; left].
        eapply path_in_mono; [|by apply Hpath].
        intros r Hr. apply elem_of_app. by left.
  - intros p q Hp Hadj. apply elem_of_app in Hp as [Hp|Hp].
    + destruct (Hfront p q Hp Hadj) as [Hq|[Hq|Hq]]; [| |by right; right].
      * left. apply elem_of_union. by right.
      * apply elem_of_cons in Hq as [->|Hq].
        -- left. apply elem_of_union. left. by apply elem_of_singleton.
        -- right. left. apply elem_of_app. by left.
    + apply list_elem_of_singleton in Hp as ->.
      right. left. apply elem_of_app. right. by apply adjacent_neighbours.
  - intros q Hq. apply elem_of_app in Hq as [Hq|Hq].
    + destruct (Hqueue q) as [->|(p0 & Hp0 & Hadj)]; [by right | by left |].
      right. exists p0. split; [|done]. apply elem_of_app. by left.
    + right. exists (x, y). split; [apply elem_of_app; right; left|].
      by apply adjacent_neighbours.
  - destruct Hstart as [Hs|Hs].
    + apply elem_of_cons in Hs as [->|Hs].
      * right. apply elem_of_app. right. left.
      * left. apply elem_of_app. by left.
    + right. apply elem_of_app. by left.
Qed.

(** The loop returns once it has made four passes for every unvisited
    pixel and one for every queued coordinate, and the invariant then
    holds with an empty queue. *)
Lemma flood_loop_spec (n : nat) :
  forall queue visited region,
    flood_inv img start c V0 queue visited region ->
    (4 * size (grid_set img ∖ visited) + length queue < n)%nat ->
    exists region' visited',
      flood_loop n img c queue visited region = Ret (region', visited')
      /\ flood_inv img start c V0 [] visited' region'.
Proof.
  induction n as [|n IH]; intros queue visited region Hinv Hn; [lia|].
  cbn [flood_loop]. destruct queue as [|[x y] queue]; [eauto|].
  simpl in Hn. destruct (img_size img) as [w h] eqn:Hsize.
  destruct (decide ((x, y) ∈ visited)) as [Hvis|Hvis].
  { apply IH; [|lia]. eapply flood_inv_skip; [done|]. by left. }
  destruct (decide (x < 0 \/ y < 0 \/ x >= w \/ y >= h)) as [Hout|Hin].
  { apply IH; [|lia]. eapply flood_inv_skip; [done|]. right. left.
    unfold in_bounds. rewrite Hsize. simpl. lia. }
  assert (in_bounds img (x, y)) as Hb.
  { unfold in_bounds. rewrite Hsize. simpl. lia. }
  unfold getpixel. rewrite decide_True by done. rewrite bind_Ret.
  destruct (decide (img_pixels img x y <> c)) as [Hne|Heq].
  { apply IH; [|lia]. eapply flood_inv_skip; [done|]. by right; right. }
  apply IH.
  - apply flood_inv_visit; try done. unfold color_at. simpl.
    by destruct (decide (img_pixels img x y = c)).
  - pose proof (size_unvisited (x, y) visited Hb Hvis). rewrite length_app.
    simpl. lia.
Qed.
End Flood.

(** One flood fill from an unvisited pixel, the visited set being a
    union of whole components: it returns the component of the pixel
    and adds exactly that component to the visited set. *)
Lemma flood_fill_spec (x y : Z) (V0 : gset point) :
  closed_set img V0 -> in_bounds img (x, y) -> (x, y) ∉ V0 ->
  exists region V',
    flood_fill img x y (color_at img (x, y)) V0 = Ret (region, V')
    /\ component_ok img (color_at img (x, y)) region
    /\ (x, y) ∈ region
    /\ (forall p, p ∈ V' <-> p ∈ V0 \/ p ∈ region)
    /\ (forall p, p ∈ region -> p ∉ V0)
    /\ closed_set img V'.
Proof.
  intros Hclosed Hin Hfresh. unfold flood_fill.
  destruct (flood_loop_spec (x, y) (color_at img (x, y)) V0 Hin eq_refl Hfresh
              (flood_bound img) [(x, y)] V0 [])
    as (region & V' & Hrun & [Hvis Hnd Hfr Hcol Hpath Hfront Hqueue Hstart]).
  { split.
    - intros p. rewrite elem_of_nil. tauto.
    - constructor.
    - intros p Hp. by apply elem_of_nil in Hp.
    - intros p Hp. by apply elem_of_nil in Hp.
    - intros p Hp. by apply elem_of_nil in Hp.
    - intros p q Hp. by apply elem_of_nil in Hp.
    - intros q Hq. left. by apply list_elem_of_singleton in Hq.
    - left. left. }
  { pose proof size_grid_set as Hsz.
    assert (size (grid_set img ∖ V0) <= size (grid_set img))%nat.
    { apply subseteq_size. intros q Hq.
      by apply elem_of_difference in Hq as [Hq _]. }
    unfold flood_bound. simpl. lia. }
  assert (forall p q, p ∈ region -> adjacent p q -> in_bounds img q ->
                      color_at img q = color_at img (x, y) -> q ∈ region)
    as Hmax.
  { intros p q Hp Hadj Hq Hcq.
    destruct (Hfront p q Hp Hadj) as [Hv|[Hv|[Hv|Hv]]]; try done.
    - apply Hvis in Hv as [Hv|Hv]; [|done].
      destruct (Hclosed q Hv) as [_ Hcl]. destruct (Hfr p Hp).
      apply Hcl; [by apply adjacent_sym | by apply Hcol |].
      destruct (Hcol p Hp) as [_ ->]. done.
    - by apply elem_of_nil in Hv. }
  exists region, V'. split; [done|]. split; [|split; [|split; [done|split]]].
  - split; try done.
    intros p q Hp Hq. apply path_in_trans with (x, y).
    + apply path_in_sym. by apply Hpath.
    + by apply Hpath.
  - destruct Hstart as [Hs|Hs]; [by apply elem_of_nil in Hs | done].
  - done.
  - intros p Hp. apply Hvis in Hp as [Hp|Hp].
    + destruct (Hclosed p Hp) as [Hb Hcl]. split; [done|].
      intros q Hadj Hq Hcq. apply Hvis. left. by apply Hcl.
    + destruct (Hcol p Hp) as [Hb Hcp]. split; [done|].
      intros q Hadj Hq Hcq. apply Hvis. right.
      apply (Hmax p q); try done. by rewrite Hcq.
Qed.

(** ** The scan of the grid *)

Lemma member_count_app (comps1 comps2 : list (list point)) (p : point) :
  member_count (comps1 ++ comps2) p
  = (member_count comps1 p + member_count comps2 p)%nat.
Proof. unfold member_count. by rewrite filter_app, length_app. Qed.

Lemma member_count_single (comp : list point) (p : point) :
  member_count [comp] p = if decide (p ∈ comp) then 1%nat else 0%nat.
Proof.
  unfold member_count. rewrite filter_cons, filter_nil.
  repeat case_decide; done.
Qed.

Lemma component_count_at (d1 d2 : list (Color * list (list point)))
    (c : Color) (v : list (list point)) (p : point) :
  component_count (d1 ++ (c, v) :: d2) p
  = (component_count d1 p + member_count v p + component_count d2 p)%nat.
Proof.
  unfold component_count. rewrite sum_list_with_app. simpl. lia.
Qed.

(** Recording a new component under its colour keeps the invariant. *)
Lemma scan_inv_add (d1 d2 : list (Color * list (list point))) (c : Color)
    (v : list (list point)) (region : list point) (V V' : gset point) :
  scan_inv img (d1 ++ (c, v) :: d2) V ->
  closed_set img V' ->
  component_ok img c region ->
  (forall p, p ∈ V' <-> p ∈ V \/ p ∈ region) ->
  (forall p, p ∈ region -> p ∉ V) ->
  scan_inv img (d1 ++ (c, v ++ [region]) :: d2) V'.
Proof.
  intros [Hclosed Hkeys Hcount Hcomps] Hclosed' Hok HV' Hfresh. split.
  - done.
  - rewrite dict_keys_app, dict_keys_cons.
    by rewrite dict_keys_app, dict_keys_cons in Hkeys.
  - intros p. rewrite component_count_at, member_count_app.
    rewrite member_count_single.
    pose proof (Hcount p) as Hp. rewrite component_count_at in Hp.
    pose proof (HV' p) as Hv. pose proof (Hfresh p) as Hf.
    repeat case_decide; try lia; tauto.
  - apply Forall_app in Hcomps as [H1 H2].
    apply Forall_cons in H2 as [Hv H2]. simpl in Hv.
    apply Forall_app. split; [done|]. apply Forall_cons. split; [|done].
    simpl. apply Forall_app. split; [done|]. by apply Forall_singleton.
Qed.

(** The body of the scan at a pixel of the image: it returns, keeps the
    invariant, forgets no visited pixel and leaves the pixel visited. *)
Lemma scan_pixel_spec (x y : Z) (regions : list (Color * list (list point)))
    (visited : gset point) :
  scan_inv img regions visited -> in_bounds img (x, y) ->
  exists regions' visited',
    scan_pixel img x y (regions, visited) = Ret (regions', visited')
    /\ scan_inv img regions' visited'
    /\ visited ⊆ visited'
    /\ (x, y) ∈ visited'.
Proof.
  intros Hinv Hin. unfold scan_pixel, getpixel.
  rewrite decide_True by done. rewrite bind_Ret.
  destruct (decide ((x, y) ∈ visited)) as [Hvis|Hvis].
  { exists regions, visited. done. }
  change (img_pixels img x y) with (color_at img (x, y)).
  destruct (flood_fill_spec x y visited (si_closed _ _ _ Hinv) Hin Hvis)
    as (region & V' & Hrun & Hok & Hmem & HV' & Hfresh & Hclosed').
  rewrite Hrun, bind_Ret. cbv beta iota.
  set (c := color_at img (x, y)) in *.
  assert (visited ⊆ V') as Hsub by (intros p Hp; apply HV'; by left).
  assert ((x, y) ∈ V') as Hxy by (apply HV'; by right).
  destruct (dict_has regions c) eqn:Hhas.
  - apply dict_has_true in Hhas.
    destruct (dict_get_in regions c Hhas) as (d1 & v & d2 & -> & Hd1 & Hget).
    rewrite Hget, bind_Ret, dict_set_at by done.
    eexists _, V'. split; [done|]. split; [|done].
    by apply scan_inv_add with visited.
  - apply dict_has_false in Hhas.
    rewrite dict_set_new by done.
    rewrite dict_get_at, bind_Ret, dict_set_at by done.
    eexists _, V'. split; [done|]. split; [|done].
    apply scan_inv_add with visited; try done.
    destruct Hinv as [Hclosed Hkeys Hcount Hcomps]. split.
    + done.
    + rewrite dict_keys_app. apply NoDup_app. split; [done|].
      split; [|apply NoDup_singleton].
      intros k Hk Hk'. apply list_elem_of_singleton in Hk' as ->. done.
    + intros p. rewrite component_count_at, <- Hcount.
      unfold component_count, member_count. simpl. lia.
    + apply Forall_app. split; [done|]. apply Forall_singleton. constructor.
Qed.

(** The scan of the whole grid returns; the invariant holds at its end
    and every pixel of the image is visited. *)
Lemma find_color_regions_spec :
  exists regions visited,
    find_color_regions img = Ret regions
    /\ scan_inv img regions visited
    /\ forall p, p ∈ visited <-> in_bounds img p.
Proof.
  unfold find_color_regions.
  destruct (img_size img) as [w h] eqn:Hsize.
  set (row := fun (y : Z) st =>
         for_each (range 0 w) (fun x st => scan_pixel img x y st) st).
  destruct (for_each_inv
              (fun (done : list Z)
                   (st : list (Color * list (list point)) * gset point) =>
                 scan_inv img st.1 st.2
                 /\ forall x y, y ∈ done -> 0 <= x < w -> (x, y) ∈ st.2)
              (range 0 h) row ([], ∅))
    as ([regions visited] & Hrun & Hinv & Hall).
  - split.
    + split; simpl.
      * intros p Hp. by apply not_elem_of_empty in Hp.
      * constructor.
      * intros p. by rewrite decide_False by apply not_elem_of_empty.
      * constructor.
    + intros x y Hy. by apply elem_of_nil in Hy.
  - intros done y rest [regions visited] Hsplit [Hinv Hdone]. simpl in *.
    assert (0 <= y < h) as Hy.
    { apply (elem_of_range 0 h). rewrite Hsplit. apply elem_of_app.
      right. left. }
    destruct (for_each_inv
                (fun (done' : list Z)
                     (st : list (Color * list (list point)) * gset point) =>
                   scan_inv img st.1 st.2
                   /\ visited ⊆ st.2
                   /\ forall x, x ∈ done' -> (x, y) ∈ st.2)
                (range 0 w) (fun x st => scan_pixel img x y st)
                (regions, visited))
      as ([regions' visited'] & Hrun & Hinv' & Hsub & Hrow).
    + split; [done|]. split; [done|]. intros x Hx. by apply elem_of_nil in Hx.
    + intros done' x rest' [regions1 visited1] Hsplit' (Hinv1 & Hsub1 & Hrow1).
      simpl in *.
      assert (0 <= x < w) as Hx.
      { apply (elem_of_range 0 w). rewrite Hsplit'. apply elem_of_app.
        right. left. }
      destruct (scan_pixel_spec x y regions1 visited1 Hinv1)
        as (regions2 & visited2 & Hrun2 & Hinv2 & Hsub2 & Hxy).
      { unfold in_bounds. rewrite Hsize. simpl. lia. }
      exists (regions2, visited2). split; [done|]. simpl.
      split; [done|]. split; [by etrans|].
      intros x' Hx'. apply elem_of_app in Hx' as [Hx'|Hx'].
      * apply Hsub2. by apply Hrow1.
      * by apply list_elem_of_singleton in Hx' as ->.
    + exists (regions', visited'). split; [done|]. simpl in *.
      split; [done|]. intros x y' Hy' Hx.
      apply elem_of_app in Hy' as [Hy'|Hy'].
      * apply Hsub. by apply Hdone.
      * apply list_elem_of_singleton in Hy' as ->. apply Hrow.
        by apply elem_of_range.
  - simpl in *. rewrite Hrun, bind_Ret.
    exists regions, visited. split; [done|]. split; [done|].
    intros p. split.
    + intros Hp. by apply (si_closed _ _ _ Hinv).
    + intros [Hx Hy]. rewrite Hsize in Hx, Hy. simpl in Hx, Hy.
      destruct p as [px py]. apply Hall; [by apply elem_of_range | done].
Qed.
End ExtractorProofs.

(** ** The catalog *)

Lemma cover_count_concat (ls : list (list rect)) (p : point) :
  cover_count (concat ls) p = sum_list_with (fun rl => cover_count rl p) ls.
Proof.
  induction ls as [|rl ls IH]; [done|].
  cbn [concat sum_list_with]. by rewrite cover_count_app, IH.
Qed.

Lemma member_count_cons (comp : list point) (comps : list (list point))
    (p : point) :
  member_count (comp :: comps) p
  = ((if decide (p ∈ comp) then 1 else 0) + member_count comps p)%nat.
Proof.
  unfold member_count. rewrite filter_cons. repeat case_decide; simpl; done.
Qed.

Lemma member_count_pos (comps : list (list point)) (p : point) :
  (0 < member_count comps p)%nat -> exists comp, comp ∈ comps /\ p ∈ comp.
Proof.
  induction comps as [|comp comps IH]; [unfold member_count; simpl; lia|].
  rewrite member_count_cons. destruct (decide (p ∈ comp)) as [Hp|Hp].
  - intros _. exists comp. split; [left | done].
  - intros Hpos. destruct IH as (comp' & Hin & Hp'); [simpl in Hpos; lia|].
    exists comp'. split; [by right | done].
Qed.

Lemma catalog_lookup {Color : Type} (rects : list (Color * list rect))
    (i : nat) :
  catalog rects !! i
  = (fun e : Color * list rect => (region_name (S i), e.2)) <$> rects !! i.
Proof.
  unfold catalog. rewrite list_lookup_imap.
  destruct (rects !! i) as [[c rl]|]; done.
Qed.

Lemma catalog_groups {Color : Type} (rects : list (Color * list rect)) :
  (catalog rects).*2 = rects.*2.
Proof.
  apply list_eq. intros i. rewrite !list_lookup_fmap, catalog_lookup.
  destruct (rects !! i) as [[c rl]|]; done.
Qed.

Lemma region_name_inj (i j : nat) : region_name i = region_name j -> i = j.
Proof.
  unfold region_name. intros Heq. apply String.app_inj in Heq.
  by apply (inj pretty) in Heq.
Qed.

Lemma catalog_names_NoDup {Color : Type} (rects : list (Color * list rect)) :
  NoDup (catalog rects).*1.
Proof.
  apply NoDup_alt. intros i j name Hi Hj.
  rewrite list_lookup_fmap, catalog_lookup in Hi, Hj.
  destruct (rects !! i) as [ei|]; [|done].
  destruct (rects !! j) as [ej|]; [|done].
  simpl in Hi, Hj. injection Hi as Hi. injection Hj as Hj.
  assert (S i = S j) by (apply region_name_inj; congruence). lia.
Qed.

Section CatalogProofs.
Context {Color : Type} `{EqDecision Color}.
Variable choose : gset point -> point.
Hypothesis choose_in : forall s : gset point, s <> ∅ -> choose s ∈ s.

Lemma extend_rects_spec (c : Color) (comp : list point)
    (rects : list (Color * list rect)) (rl : list rect) :
  c ∉ dict_keys rects ->
  exists new,
    extend_rects choose c comp (rects ++ [(c, rl)])
    = Ret (rects ++ [(c, rl ++ new)])
    /\ forall p, cover_count new p = if decide (p ∈ comp) then 1%nat else 0%nat.
Proof.
  intros Hc. unfold extend_rects. rewrite dict_get_at, bind_Ret by done.
  destruct (split_into_rects_spec choose choose_in comp)
    as (new & Hrun & _ & Hcount & _).
  rewrite Hrun, !bind_Ret, dict_set_at by done. by exists new.
Qed.

(** The loop over the components of one colour appends, to the entry of
    that colour, rectangles that cover a coordinate as often as it lies
    in one of the components. *)
Lemma extend_loop_spec (c : Color) (comps : list (list point)) :
  forall (rects : list (Color * list rect)) (rl : list rect),
    c ∉ dict_keys rects ->
    exists rl',
      for_each comps (extend_rects choose c) (rects ++ [(c, rl)])
      = Ret (rects ++ [(c, rl ++ rl')])
      /\ forall p, cover_count rl' p = member_count comps p.
Proof.
  induction comps as [|comp comps IH]; intros rects rl Hc.
  - exists []. by rewrite app_nil_r.
  - cbn [for_each].
    destruct (extend_rects_spec c comp rects rl Hc) as (new & Hrun & Hcount).
    rewrite Hrun, bind_Ret.
    destruct (IH rects (rl ++ new) Hc) as (rl' & Hloop & Hcount').
    exists (new ++ rl'). split; [by rewrite Hloop, app_assoc|].
    intros p. by rewrite cover_count_app, member_count_cons, Hcount, Hcount'.
Qed.

Lemma group_ok_keys (regions : list (Color * list (list point)))
    (rects : list (Color * list rect)) :
  Forall2 group_ok regions rects -> dict_keys rects = dict_keys regions.
Proof.
  intros Hall. induction Hall as [|e g regions rects [Hk _] _ IH]; [done|].
  unfold dict_keys in *. rewrite !fmap_cons. by rewrite IH, Hk.
Qed.

Lemma create_rects_spec (regions : list (Color * list (list point))) :
  NoDup (dict_keys regions) ->
  exists rects,
    create_rects choose regions = Ret rects /\ Forall2 group_ok regions rects.
Proof.
  intros Hkeys. unfold create_rects.
  apply (for_each_inv (fun done rects => Forall2 group_ok done rects)).
  - constructor.
  - intros done [c comps] rest rects Hsplit Hdone.
    assert (c ∉ dict_keys rects) as Hc.
    { rewrite (group_ok_keys _ _ Hdone). rewrite Hsplit in Hkeys.
      rewrite dict_keys_app, dict_keys_cons in Hkeys.
      apply NoDup_app in Hkeys as (_ & Hdisj & _).
      intros Hin. apply (Hdisj c Hin). left. }
    rewrite dict_set_new by done.
    destruct (extend_loop_spec c comps rects [] Hc) as (rl & Hrun & Hcount).
    exists (rects ++ [(c, rl)]). split; [done|].
    apply Forall2_app; [done|]. constructor; [|constructor]. done.
Qed.

(** Over the whole catalog a coordinate is covered as often as it lies
    in a component. *)
Lemma group_ok_count (regions : list (Color * list (list point)))
    (rects : list (Color * list rect)) (p : point) :
  Forall2 group_ok regions rects ->
  cover_count (catalog_rects (catalog rects)) p = component_count regions p.
Proof.
  intros Hall. unfold catalog_rects. rewrite catalog_groups, cover_count_concat.
  unfold component_count.
  induction Hall as [|e g regions rects [_ Hcount] _ IH]; [done|].
  rewrite fmap_cons. cbn [sum_list_with]. by rewrite IH, Hcount.
Qed.
End CatalogProofs.

(** ** From the image to the catalog *)

Lemma elem_of_concat {A : Type} (ls : list (list A)) (x : A) :
  x ∈ concat ls <-> exists l, l ∈ ls /\ x ∈ l.
Proof.
  induction ls as [|l ls IH]; cbn [concat].
  - split; [intros Hx; by apply elem_of_nil in Hx|].
    intros (l & Hl & _). by apply elem_of_nil in Hl.
  - rewrite elem_of_app, IH. split.
    + intros [Hx|(l' & Hl' & Hx)]; [exists l; split; [left|done]|].
      exists l'. split; [by right | done].
    + intros (l' & Hl' & Hx). apply elem_of_cons in Hl' as [->|Hl'];
        [by left | right; eauto].
Qed.

Section PipelineProofs.
Context {Color : Type} `{EqDecision Color}.
Variable choose : gset point -> point.
Hypothesis choose_in : forall s : gset point, s <> ∅ -> choose s ∈ s.
Variable img : image Color.

(** Both stages return, and their results satisfy the invariants. *)
Lemma pipeline_spec :
  exists regions rects visited,
    find_color_regions img = Ret regions
    /\ create_rects choose regions = Ret rects
    /\ scan_inv img regions visited
    /\ (forall p, p ∈ visited <-> in_bounds img p)
    /\ Forall2 group_ok regions rects.
Proof.
  destruct (find_color_regions_spec img)
    as (regions & visited & Hfind & Hinv & Hall).
  destruct (create_rects_spec choose choose_in regions (si_keys _ _ _ Hinv))
    as (rects & Hrects & Hgroups).
  by exists regions, rects, visited.
Qed.

Section Results.
Variables (regions : list (Color * list (list point)))
          (rects : list (Color * list rect)) (visited : gset point).
Hypothesis Hinv : scan_inv img regions visited.
Hypothesis Hall : forall p, p ∈ visited <-> in_bounds img p.
Hypothesis Hgroups : Forall2 group_ok regions rects.

(** Every pixel of the image is covered once, nothing else is covered. *)
Lemma catalog_cover_count (p : point) :
  cover_count (catalog_rects (catalog rects)) p
  = if decide (in_bounds img p) then 1%nat else 0%nat.
Proof.
  rewrite (group_ok_count regions rects p Hgroups), (si_count _ _ _ Hinv).
  pose proof (Hall p). repeat case_decide; tauto.
Qed.

(** A rectangle of the group of colour [c] covers pixels of colour [c]
    only. *)
Lemma group_color (i : nat) (c : Color) (rl : list rect) (r : rect)
    (p : point) :
  rects !! i = Some (c, rl) -> r ∈ rl -> covers r p ->
  in_bounds img p /\ color_at img p = c.
Proof.
  intros Hi Hr Hcov.
  destruct (Forall2_lookup_r _ _ _ _ _ Hgroups Hi) as ([c' comps] & He & Hk & Hc).
  simpl in Hk, Hc. subst c'.
  assert (0 < member_count comps p)%nat as Hpos.
  { rewrite <- Hc. apply cover_count_pos. eauto. }
  apply member_count_pos in Hpos as (comp & Hcomp & Hp).
  pose proof (si_comps _ _ _ Hinv) as Hok.
  rewrite Forall_lookup in Hok. specialize (Hok _ _ He). simpl in Hok.
  rewrite Forall_forall in Hok. by apply (comp_color _ _ _ (Hok _ Hcomp)).
Qed.

(** Every pixel of the image is covered by a rectangle of some group. *)
Lemma covered_group (p : point) :
  in_bounds img p ->
  exists i c rl r, rects !! i = Some (c, rl) /\ r ∈ rl /\ covers r p.
Proof.
  intros Hp.
  assert (0 < cover_count (catalog_rects (catalog rects)) p)%nat as Hpos.
  { rewrite catalog_cover_count, decide_True by done. lia. }
  apply cover_count_pos in Hpos as (r & Hr & Hcov).
  unfold catalog_rects in Hr. rewrite catalog_groups in Hr.
  apply elem_of_concat in Hr as (rl & Hrl & Hr).
  apply list_elem_of_fmap in Hrl as ([c rl'] & -> & He).
  apply list_elem_of_lookup in He as (i & Hi).
  exists i, c, rl', r. done.
Qed.

Lemma rects_keys_NoDup : NoDup (dict_keys rects).
Proof. rewrite (group_ok_keys _ _ Hgroups). apply (si_keys _ _ _ Hinv). Qed.

(** The groups are the colours. *)
Lemma same_group_iff_color (p q : point) :
  in_bounds img p -> in_bounds img q ->
  same_group (catalog rects) p q <-> color_at img p = color_at img q.
Proof.
  intros Hp Hq. split.
  - intros (name & rl & Hin & (r1 & Hr1 & Hc1) & (r2 & Hr2 & Hc2)).
    apply list_elem_of_lookup in Hin as (i & Hi).
    rewrite catalog_lookup in Hi.
    destruct (rects !! i) as [[c rl']|] eqn:He; [|done].
    simpl in Hi. injection Hi as _ <-.
    destruct (group_color i c rl' r1 p He Hr1 Hc1) as [_ ->].
    by destruct (group_color i c rl' r2 q He Hr2 Hc2) as [_ ->].
  - intros Hcol.
    destruct (covered_group p Hp) as (i & c1 & rl1 & r1 & Hi & Hr1 & Hc1).
    destruct (covered_group q Hq) as (j & c2 & rl2 & r2 & Hj & Hr2 & Hc2).
    destruct (group_color i c1 rl1 r1 p Hi Hr1 Hc1) as [_ Hcp].
    destruct (group_color j c2 rl2 r2 q Hj Hr2 Hc2) as [_ Hcq].
    assert (i = j) as <-.
    { pose proof rects_keys_NoDup as Hnd. rewrite NoDup_alt in Hnd.
      apply (Hnd i j c1); unfold dict_keys; rewrite list_lookup_fmap.
      - by rewrite Hi.
      - rewrite Hj. simpl. congruence. }
    rewrite Hi in Hj. injection Hj as _ <-.
    exists (region_name (S i)), rl1.
    split; [|split; [by exists r1 | by exists r2]].
    apply list_elem_of_lookup. exists i. by rewrite catalog_lookup, Hi.
Qed.
End Results.
End PipelineProofs.

(** ** The concrete pick rule *)

Lemma lowest_in (d : point) (l : list point) :
  lowest d l = d \/ lowest d l ∈ l.
Proof.
  induction l as [|p l IH]; [by left|]. unfold lowest in *. cbn [foldr].
  case_decide; [right; left|]. destruct IH as [IH|IH]; [by left|].
  right. by right.
Qed.

Lemma choose_low_in (s : gset point) : s <> ∅ -> choose_low s ∈ s.
Proof.
  intros Hs. unfold choose_low. apply elem_of_elements.
  destruct (elements s) as [|p l] eqn:Hel.
  - apply elements_empty_inv in Hel. destruct Hs. by apply leibniz_equiv.
  - destruct (lowest_in (hd (0, 0) (p :: l)) (p :: l)) as [->|Hin]; [left|done].
Qed.

Example split_comp3_lowest_first :
  split_into_rects choose_low comp3 = Ret [(0, 0, 3, 2); (0, 2, 3, 1)].
Proof. vm_compute. reflexivity. Qed.

Example find_color_regions_img3 :
  find_color_regions img3 = Ret [("A"%string, [comp3])].
Proof. vm_compute. reflexivity. Qed.

(** ** The order of the colours *)

Section KeyOrder.
Context {Color : Type} `{EqDecision Color}.
Variable img : image Color.

Lemma component_count_pos (regions : list (Color * list (list point)))
    (p : point) :
  (0 < component_count regions p)%nat ->
  exists c comps comp, (c, comps) ∈ regions /\ comp ∈ comps /\ p ∈ comp.
Proof.
  unfold component_count.
  induction regions as [|[c comps] regions IH]; cbn [sum_list_with];
    [lia|].
  intros Hpos. destruct (decide (0 < member_count comps p)%nat) as [Hm|Hm].
  - apply member_count_pos in Hm as (comp & Hcomp & Hp).
    exists c, comps, comp. split; [left | done].
  - simpl in Hpos. destruct IH as (c' & comps' & comp & Hin & Hcomp & Hp);
      [lia|].
    exists c', comps', comp. split; [by right | done].
Qed.

(** A visited pixel lies in a component, so its colour is a key. *)
Lemma visited_color_key (regions : list (Color * list (list point)))
    (visited : gset point) (p : point) :
  scan_inv img regions visited -> p ∈ visited ->
  color_at img p ∈ dict_keys regions.
Proof.
  intros Hinv Hp.
  assert (0 < component_count regions p)%nat as Hpos.
  { rewrite (si_count _ _ _ Hinv), decide_True by done. lia. }
  apply component_count_pos in Hpos as (c & comps & comp & He & Hcomp & Hin).
  pose proof (si_comps _ _ _ Hinv) as Hok. rewrite Forall_forall in Hok.
  specialize (Hok _ He). simpl in Hok. rewrite Forall_forall in Hok.
  destruct (comp_color _ _ _ (Hok _ Hcomp) p Hin) as [_ ->].
  apply list_elem_of_fmap. by exists (c, comps).
Qed.

(** The body of the scan keeps the keys, or adds the colour of its
    pixel as the last key when that colour is not a key yet. *)
Lemma scan_pixel_keys (x y : Z)
    (regions regions' : list (Color * list (list point)))
    (visited visited' : gset point) :
  scan_inv img regions visited -> in_bounds img (x, y) ->
  scan_pixel img x y (regions, visited) = Ret (regions', visited') ->
  (dict_keys regions' = dict_keys regions
   /\ color_at img (x, y) ∈ dict_keys regions)
  \/ (dict_keys regions' = dict_keys regions ++ [color_at img (x, y)]
      /\ color_at img (x, y) ∉ dict_keys regions).
Proof.
  intros Hinv Hin. unfold scan_pixel, getpixel.
  rewrite decide_True by done. rewrite bind_Ret.
  destruct (decide ((x, y) ∈ visited)) as [Hvis|Hvis].
  { intros [= <- <-]. left. split; [done|].
    by apply (visited_color_key regions visited). }
  change (img_pixels img x y) with (color_at img (x, y)).
  destruct (flood_fill_spec img x y visited (si_closed _ _ _ Hinv) Hin Hvis)
    as (region & V' & Hrun & _).
  rewrite Hrun, bind_Ret. cbv beta iota.
  set (c := color_at img (x, y)) in *.
  destruct (dict_has regions c) eqn:Hhas.
  - apply dict_has_true in Hhas.
    destruct (dict_get_in regions c Hhas) as (d1 & v & d2 & -> & Hd1 & Hget).
    rewrite Hget, bind_Ret, dict_set_at by done. intros [= <- <-].
    left. split; [|done].
    by rewrite !dict_keys_app, !dict_keys_cons.
  - apply dict_has_false in Hhas.
    rewrite dict_set_new by done.
    rewrite dict_get_at, bind_Ret, dict_set_at by done. intros [= <- <-].
    right. split; [|done]. by rewrite dict_keys_app.
Qed.

Lemma key_order_same (scanned : list point) (keys : list Color) (p : point) :
  key_order img scanned keys -> color_at img p ∈ keys ->
  key_order img (scanned ++ [p]) keys.
Proof.
  intros [Hord Hseen Hkeys] Hp. split.
  - intros i j c1 c2 Hij Hi Hj.
    destruct (Hord i j c1 c2 Hij Hi Hj) as (l1 & p1 & l2 & -> & Hc1 & Hl1).
    exists l1, p1, (l2 ++ [p]). split; [by rewrite <- app_assoc|]. done.
  - intros c Hc. destruct (Hseen c Hc) as (q & Hq & Hcq).
    exists q. split; [|done]. apply elem_of_app. by left.
  - intros q Hq. apply elem_of_app in Hq as [Hq|Hq]; [by apply Hkeys|].
    by apply list_elem_of_singleton in Hq as ->.
Qed.

Lemma key_order_new (scanned : list point) (keys : list Color) (p : point) :
  key_order img scanned keys -> color_at img p ∉ keys ->
  key_order img (scanned ++ [p]) (keys ++ [color_at img p]).
Proof.
  intros [Hord Hseen Hkeys] Hp. split.
  - intros i j c1 c2 Hij Hi Hj.
    destruct (decide (j < length keys)%nat) as [Hj'|Hj'].
    + rewrite lookup_app_l in Hi by lia. rewrite lookup_app_l in Hj by done.
      destruct (Hord i j c1 c2 Hij Hi Hj) as (l1 & p1 & l2 & -> & Hc1 & Hl1).
      exists l1, p1, (l2 ++ [p]). split; [by rewrite <- app_assoc|]. done.
    + rewrite lookup_app_r in Hj by lia.
      apply list_lookup_singleton_Some in Hj as [Hj <-].
      rewrite lookup_app_l in Hi by lia.
      assert (c1 ∈ keys) as Hc1 by (by eapply list_elem_of_lookup_2).
      destruct (Hseen c1 Hc1) as (p1 & Hp1 & Hcp1).
      destruct (list_elem_of_split _ _ Hp1) as (l1 & l2 & ->).
      exists l1, p1, (l2 ++ [p]). split; [by rewrite <- app_assoc|].
      split; [done|]. intros q Hq Hcq. apply Hp. rewrite <- Hcq.
      apply Hkeys. apply elem_of_app in Hq as [Hq|Hq].
      * apply elem_of_app. by left.
      * apply list_elem_of_singleton in Hq as ->. apply elem_of_app.
        right. left.
  - intros c Hc. apply elem_of_app in Hc as [Hc|Hc].
    + destruct (Hseen c Hc) as (q & Hq & Hcq).
      exists q. split; [|done]. apply elem_of_app. by left.
    + apply list_elem_of_singleton in Hc as ->.
      exists p. split; [|done]. apply elem_of_app. right. left.
  - intros q Hq. apply elem_of_app. apply elem_of_app in Hq as [Hq|Hq].
    + left. by apply Hkeys.
    + right. apply list_elem_of_singleton in Hq as ->. left.
Qed.

(** The dictionary [find_color_regions] returns has its keys in the
    order in which their colours first occur in the scan, row by row. *)
Lemma find_color_regions_key_order :
  exists regions,
    find_color_regions img = Ret regions
    /\ key_order img
         (grid_list (img_size img).1 (img_size img).2) (dict_keys regions).
Proof.
  unfold find_color_regions.
  destruct (img_size img) as [w h] eqn:Hsize. cbn [fst snd].
  set (row := fun y : Z => range 0 w ≫= fun x : Z => [(x, y)]).
  destruct (for_each_inv
              (fun (done : list Z)
                   (st : list (Color * list (list point)) * gset point) =>
                 scan_inv img st.1 st.2
                 /\ key_order img (done ≫= row) (dict_keys st.1))
              (range 0 h)
              (fun y st =>
                 for_each (range 0 w) (fun x st => scan_pixel img x y st) st)
              ([], ∅))
    as ([regions visited] & Hrun & Hinv & Hko).
  - split.
    + split; simpl.
      * intros p Hp. by apply not_elem_of_empty in Hp.
      * constructor.
      * intros p. by rewrite decide_False by apply not_elem_of_empty.
      * constructor.
    + split.
      * intros i j c1 c2 _ Hi. done.
      * intros c Hc. by apply elem_of_nil in Hc.
      * intros p Hp. by apply elem_of_nil in Hp.
  - intros done y rest st Hsplit [Hst Hko].
    assert (0 <= y < h) as Hy.
    { apply (elem_of_range 0 h). rewrite Hsplit. apply elem_of_app.
      right. left. }
    destruct (for_each_inv
                (fun (done' : list Z)
                     (st : list (Color * list (list point)) * gset point) =>
                   scan_inv img st.1 st.2
                   /\ key_order img
                        ((done ≫= row) ++ (done' ≫= fun x : Z => [(x, y)]))
                        (dict_keys st.1))
                (range 0 w) (fun x st => scan_pixel img x y st) st)
      as (st' & Hrun' & Hst' & Hko').
    + split; [done|]. simpl. by rewrite app_nil_r.
    + intros done' x rest' [regions1 visited1] Hsplit' [Hinv1 Hko1].
      simpl in Hinv1, Hko1.
      assert (in_bounds img (x, y)) as Hb.
      { assert (0 <= x < w).
        { apply (elem_of_range 0 w). rewrite Hsplit'. apply elem_of_app.
          right. left. }
        unfold in_bounds. rewrite Hsize. simpl. lia. }
      destruct (scan_pixel_spec img x y regions1 visited1 Hinv1 Hb)
        as (regions2 & visited2 & Hrun2 & Hinv2 & _).
      exists (regions2, visited2). split; [done|]. simpl. split; [done|].
      rewrite bind_app, app_assoc. simpl.
      destruct (scan_pixel_keys x y regions1 regions2 visited1 visited2
                  Hinv1 Hb Hrun2) as [[-> Hin]|[-> Hout]].
      * by apply key_order_same.
      * by apply key_order_new.
    + exists st'. split; [done|]. split; [done|].
      rewrite bind_app. simpl. by rewrite app_nil_r.
  - simpl in *. rewrite Hrun, bind_Ret. by exists regions.
Qed.
End KeyOrder.

(** * The specification's claims *)

Section DecomposerClaims.
Variable choose : gset point -> point.
Hypothesis choose_in : forall s : gset point, s <> ∅ -> choose s ∈ s.

(** C1: the specification has the height loop go on row after row, so
    that the 9-point component of the one-colour 3 by 3 grid becomes the
    one rectangle (0,0,3,3).  The code does not do that.  The grid has
    the one component [comp3], and whatever element [set.pop] picks, the
    decomposition of [comp3] returns a list other than [(0,0,3,3)],
    every rectangle of it at most 2 high. *)
Theorem split_3x3_never_one_rect :
  find_color_regions img3 = Ret [("A"%string, [comp3])]
  /\ exists rects,
       split_into_rects choose comp3 = Ret rects
       /\ rects <> [(0, 0, 3, 3)]
       /\ forall r, r ∈ rects -> r.2 <= 2.
Proof.
  split; [exact find_color_regions_img3|].
  destruct (split_into_rects_spec choose choose_in comp3)
    as (rects & Hrun & _ & _ & Hshape).
  rewrite Forall_forall in Hshape.
  exists rects. split; [done|]. split.
  - intros ->. specialize (Hshape (0, 0, 3, 3)). simpl in Hshape.
    assert (3 <= 2); [|lia]. apply Hshape. left.
  - intros r Hr. by apply Hshape.
Qed.

(** C4: for every coordinate collection, [split_into_rects] returns
    rectangles whose covered coordinates are exactly the coordinates of
    the input (none outside it), and no coordinate is covered by
    rectangles at two places of the list. *)
Theorem split_into_rects_exact_cover (points : list point) :
  exists rects,
    split_into_rects choose points = Ret rects
    /\ (forall p, (exists r, r ∈ rects /\ covers r p) <-> p ∈ points)
    /\ (forall i j r1 r2 p,
          rects !! i = Some r1 -> rects !! j = Some r2 ->
          covers r1 p -> covers r2 p -> i = j).
Proof.
  destruct (split_into_rects_spec choose choose_in points)
    as (rects & Hrun & _ & Hcount & _).
  exists rects. split; [done|]. split.
  - intros p. rewrite <- cover_count_pos, Hcount. case_decide; split; try done; lia.
  - intros i j r1 r2 p Hi Hj H1 H2.
    apply (cover_count_le_1 rects p i j r1 r2); try done.
    rewrite Hcount. case_decide; lia.
Qed.

(** C6: every pass of the outer loop over a non-empty set returns,
    and removes the popped origin, so the set shrinks; started with more
    tests than the set has elements the loop returns, with at most one
    rectangle per element; and [split_into_rects] itself returns, with
    no exception, at most as many rectangles as it was given
    coordinates. *)
Theorem split_into_rects_terminates (points : list point) :
  (forall s : gset point,
      s <> ∅ ->
      exists r s',
        split_step choose s = Ret (r, s')
        /\ (choose s ∈ s) /\ (choose s ∉ s') /\ (size s' < size s)%nat)
  /\ (forall (n : nat) (s : gset point),
        (size s < n)%nat ->
        exists rects,
          split_loop choose n s [] = Ret rects
          /\ (length rects <= size s)%nat)
  /\ exists rects,
       split_into_rects choose points = Ret rects
       /\ (length rects <= size (list_to_set points : gset point))%nat
       /\ (length rects <= length points)%nat.
Proof.
  split; [|split].
  - intros s Hs.
    destruct (split_step_shrinks choose choose_in s Hs)
      as (r & s' & Hrun & Hin & Hout & _ & Hlt).
    by exists r, s'.
  - intros n s Hn.
    destruct (split_loop_spec choose choose_in n s [] Hn)
      as (rs & Hrun & Hlen & _).
    by exists rs.
  - destruct (split_into_rects_spec choose choose_in points)
      as (rects & Hrun & Hlen & _).
    exists rects. split; [done|]. split; [done|].
    pose proof (size_list_to_set_le points). lia.
Qed.

(** C8: the row range of the height loop, taken while [height] is 1, is
    the single row y0+1, and every rectangle [split_into_rects] returns
    has height 1 or 2. *)
Theorem split_into_rects_height_le_2 (points : list point) :
  (forall y0 : Z, range (y0 + 1) (y0 + 1 + 1) = [y0 + 1])
  /\ exists rects,
       split_into_rects choose points = Ret rects
       /\ forall x y width height,
            (x, y, width, height) ∈ rects -> 1 <= height <= 2.
Proof.
  split; [intros y0; apply range_single; lia|].
  destruct (split_into_rects_spec choose choose_in points)
    as (rects & Hrun & _ & _ & Hshape).
  exists rects. split; [done|]. intros x y width height Hr.
  rewrite Forall_forall in Hshape. by destruct (Hshape _ Hr) as [_ Hh].
Qed.

(** C10: called with a reference to the caller's list, the function
    makes a new set object from the list's elements, at a reference
    that was not in use, and returns the rectangles of those elements;
    afterwards the caller's list is what it was, and so is every other
    object that existed before the call. *)
Theorem split_into_rects_keeps_argument (h : gmap nat Store.obj)
    (points : nat) (items : list point) :
  h !! points = Some (Store.PyList items) ->
  Store.new_set points h
  = Ret (fresh (dom h),
         <[fresh (dom h) := Store.PySet (list_to_set items)]> h)
  /\ h !! fresh (dom h) = None
  /\ exists rects h',
       Store.split_into_rects choose points h = Ret (rects, h')
       /\ split_into_rects choose items = Ret rects
       /\ h' !! points = Some (Store.PyList items)
       /\ forall l o, h !! l = Some o -> h' !! l = Some o.
Proof.
  intros Hl.
  assert (h !! fresh (dom h) = None) as Hfresh.
  { apply not_elem_of_dom. apply is_fresh. }
  split; [|split; [done|]].
  { unfold Store.new_set. by rewrite Hl. }
  rewrite (store_split_into_rects choose points h items Hl).
  destruct (split_into_rects_spec choose choose_in items)
    as (rects & Hrun & _).
  rewrite Hrun, bind_Ret.
  exists rects, (<[fresh (dom h) := Store.PySet ∅]> h).
  split; [done|]. split; [done|].
  assert (forall l o, h !! l = Some o ->
            <[fresh (dom h) := Store.PySet ∅]> h !! l = Some o) as Hframe.
  { intros l o Ho. rewrite lookup_insert_ne; [done|]. intros <-. congruence. }
  split; [by apply Hframe | done].
Qed.
End DecomposerClaims.

Section LoaderClaims.
Context {Color : Type} `{EqDecision Color}.
Variable choose : gset point -> point.
Variable print_error : world -> string -> option exn.
Variable write_result : world -> string -> write_outcome.
Variable load_error : image Color -> option exn.
Variable Image_open : string -> image Color + exn.

(** After a load that raised, [main] has touched no file. *)
Lemma main_load_failure_files (bmp_file output_file : string) (w : world)
    (e : exn) :
  load_bmp_try Image_open bmp_file = Raise e ->
  files (main choose print_error write_result load_error Image_open
           bmp_file output_file w).2 = files w.
Proof.
  intros He. unfold main, load_bmp, print. rewrite He.
  destruct (is_Exception e); [|done].
  by destruct (print_error w ("Error loading image: " +:+ exn_msg e)).
Qed.

(** After a load that raised an [Exception], with a [print] that goes
    through, [main] returns having printed the error line and nothing
    else. *)
Lemma main_load_failure_printed (bmp_file output_file : string) (w : world)
    (e : exn) :
  load_bmp_try Image_open bmp_file = Raise e ->
  is_Exception e = true ->
  print_error w ("Error loading image: " +:+ exn_msg e) = None ->
  load_bmp print_error Image_open bmp_file w
  = (Ret None,
     World (stdout w ++ ["Error loading image: " +:+ exn_msg e]) (files w))
  /\ main choose print_error write_result load_error Image_open
       bmp_file output_file w
     = (Ret tt,
        World (stdout w ++ ["Error loading image: " +:+ exn_msg e]) (files w)).
Proof.
  intros He Hexc Hprint. unfold main, load_bmp, print.
  by rewrite He, Hexc, Hprint.
Qed.

(** C7: when the opened image is not 6144 by 4096, the [try] block of
    [load_bmp] raises the dimension [ValueError] and [main] never gets
    to the core or to the writer: whatever the [print] of the error line
    does, no file is written.  When that [print] goes through,
    [load_bmp] gives [None] and [main] returns, having printed the error
    line and nothing else; when it raises, [main] ends with its
    exception.  No file is written after any exception of the [try]
    block. *)
Theorem main_aborts_on_load_failure (bmp_file output_file : string)
    (w : world) (img : image Color) :
  Image_open bmp_file = inl img ->
  img_size img <> (6144, 4096) ->
  (exists msg,
      load_bmp_try Image_open bmp_file = Raise (Exn ValueError msg)
      /\ files (main choose print_error write_result load_error Image_open
                  bmp_file output_file w).2 = files w
      /\ (print_error w ("Error loading image: " +:+ msg) = None ->
          load_bmp print_error Image_open bmp_file w
          = (Ret None,
             World (stdout w ++ ["Error loading image: " +:+ msg]) (files w))
          /\ main choose print_error write_result load_error Image_open
               bmp_file output_file w
             = (Ret tt,
                World (stdout w ++ ["Error loading image: " +:+ msg])
                  (files w)))
      /\ (forall e,
            print_error w ("Error loading image: " +:+ msg) = Some e ->
            main choose print_error write_result load_error Image_open
              bmp_file output_file w
            = (Raise e, w)))
  /\ (forall e,
        load_bmp_try Image_open bmp_file = Raise e ->
        files (main choose print_error write_result load_error Image_open
                 bmp_file output_file w).2 = files w
        /\ (is_Exception e = true ->
            print_error w ("Error loading image: " +:+ exn_msg e) = None ->
            main choose print_error write_result load_error Image_open
              bmp_file output_file w
            = (Ret tt,
               World (stdout w ++ ["Error loading image: " +:+ exn_msg e])
                 (files w)))).
Proof.
  intros Hopen Hsize. split.
  - assert (exists msg,
              load_bmp_try Image_open bmp_file = Raise (Exn ValueError msg))
      as [msg Htry].
    { eexists. unfold load_bmp_try. rewrite Hopen.
      by rewrite decide_True by done. }
    exists msg. split; [done|].
    split; [by apply (main_load_failure_files _ _ _ _ Htry)|]. split.
    + intros Hprint.
      by apply (main_load_failure_printed _ _ _ _ Htry eq_refl Hprint).
    + intros e Hprint. unfold main, load_bmp, print. rewrite Htry. simpl.
      by rewrite Hprint.
  - intros e He. split; [by apply (main_load_failure_files _ _ _ _ He)|].
    intros Hexc Hprint.
    by apply (main_load_failure_printed _ _ _ _ He Hexc Hprint).
Qed.

(** C9, as the code has it: [load_bmp] ends in one of four ways.  It
    returns the image, whose size is then (6144, 4096); or the [try]
    block raised an [Exception], the error line was printed and it
    returns [None]; or the [try] block raised an [Exception] and the
    [print] of the error line raised, and that exception leaves
    [load_bmp]; or [Image.open] raised what does not derive from
    [Exception], and that leaves [load_bmp].  It writes no file. *)
Theorem load_bmp_outcomes (file_path : string) (w : world) :
  ((exists img,
       Image_open file_path = inl img
       /\ img_size img = (6144, 4096)
       /\ load_bmp print_error Image_open file_path w = (Ret (Some img), w))
   \/ (exists e,
         load_bmp_try Image_open file_path = Raise e
         /\ is_Exception e = true
         /\ print_error w ("Error loading image: " +:+ exn_msg e) = None
         /\ load_bmp print_error Image_open file_path w
            = (Ret None,
               World (stdout w ++ ["Error loading image: " +:+ exn_msg e])
                 (files w)))
   \/ (exists e e',
         load_bmp_try Image_open file_path = Raise e
         /\ is_Exception e = true
         /\ print_error w ("Error loading image: " +:+ exn_msg e) = Some e'
         /\ load_bmp print_error Image_open file_path w = (Raise e', w))
   \/ (exists e,
         Image_open file_path = inr e
         /\ is_Exception e = false
         /\ load_bmp print_error Image_open file_path w = (Raise e, w)))
  /\ files (load_bmp print_error Image_open file_path w).2 = files w.
Proof.
  assert (forall e,
            load_bmp_try Image_open file_path = Raise e ->
            is_Exception e = true ->
            (exists e0,
                load_bmp_try Image_open file_path = Raise e0
                /\ is_Exception e0 = true
                /\ print_error w ("Error loading image: " +:+ exn_msg e0) = None
                /\ load_bmp print_error Image_open file_path w
                   = (Ret None,
                      World (stdout w ++ ["Error loading image: " +:+ exn_msg e0])
                        (files w)))
            \/ (exists e0 e',
                  load_bmp_try Image_open file_path = Raise e0
                  /\ is_Exception e0 = true
                  /\ print_error w ("Error loading image: " +:+ exn_msg e0)
                     = Some e'
                  /\ load_bmp print_error Image_open file_path w
                     = (Raise e', w))) as Hcaught.
  { intros e He Hexc.
    destruct (print_error w ("Error loading image: " +:+ exn_msg e))
      as [e'|] eqn:Hprint.
    - right. exists e, e'. split; [done|]. split; [done|]. split; [done|].
      unfold load_bmp, print. by rewrite He, Hexc, Hprint.
    - left. exists e. split; [done|]. split; [done|]. split; [done|].
      unfold load_bmp, print. by rewrite He, Hexc, Hprint. }
  split.
  - destruct (Image_open file_path) as [img|e] eqn:Hopen.
    + destruct (decide (img_size img <> (6144, 4096))) as [Hne|Heq].
      * destruct (Hcaught (Exn ValueError
                             ("Image dimensions are "
                              +:+ repr_point (img_size img)
                              +:+ ", but expected 6144x4096.")))
          as [Hc|Hc]; [|done|by right; left|by right; right; left].
        unfold load_bmp_try. rewrite Hopen. by rewrite decide_True.
      * left. exists img. split; [done|].
        split; [by destruct (decide (img_size img = (6144, 4096)))|].
        unfold load_bmp, load_bmp_try. rewrite Hopen.
        by rewrite decide_False.
    + destruct (is_Exception e) eqn:Hexc.
      * destruct (Hcaught e) as [Hc|Hc];
          [|done|by right; left|by right; right; left].
        unfold load_bmp_try. by rewrite Hopen.
      * right. right. right. exists e. split; [done|]. split; [done|].
        unfold load_bmp, load_bmp_try. by rewrite Hopen, Hexc.
  - unfold load_bmp, print.
    destruct (load_bmp_try Image_open file_path) as [img|e|]; try done.
    destruct (is_Exception e); [|done].
    by destruct (print_error w ("Error loading image: " +:+ exn_msg e)).
Qed.
End LoaderClaims.

Section ExtractorClaims.
Context {Color : Type} `{EqDecision Color}.
Variable img : image Color.

(** C5: [find_color_regions] returns; every pixel of the image lies in
    exactly one of the components it returns and a coordinate outside
    the image lies in none; and every component listed under a colour
    has no coordinate twice, consists of pixels of that colour, is
    connected through its own members, and leaves out no pixel of that
    colour next to one of its members. *)
Theorem find_color_regions_partition :
  exists regions,
    find_color_regions img = Ret regions
    /\ (forall p, in_bounds img p -> component_count regions p = 1%nat)
    /\ (forall p, ~ in_bounds img p -> component_count regions p = 0%nat)
    /\ (forall c comps comp,
          (c, comps) ∈ regions -> comp ∈ comps ->
          NoDup comp
          /\ (forall p, p ∈ comp -> in_bounds img p /\ color_at img p = c)
          /\ (forall p q, p ∈ comp -> q ∈ comp ->
                path_in (fun r => r ∈ comp) p q)
          /\ (forall p q, p ∈ comp -> adjacent p q -> in_bounds img q ->
                color_at img q = c -> q ∈ comp)).
Proof.
  destruct (find_color_regions_spec img)
    as (regions & visited & Hrun & Hinv & Hall).
  exists regions. split; [done|]. split; [|split].
  - intros p Hp. rewrite (si_count _ _ _ Hinv).
    rewrite decide_True; [done|]. by apply Hall.
  - intros p Hp. rewrite (si_count _ _ _ Hinv).
    rewrite decide_False; [done|]. by rewrite Hall.
  - intros c comps comp He Hcomp.
    pose proof (si_comps _ _ _ Hinv) as Hok. rewrite Forall_forall in Hok.
    specialize (Hok _ He). simpl in Hok. rewrite Forall_forall in Hok.
    destruct (Hok _ Hcomp) as [H1 H2 H3 H4]. done.
Qed.
End ExtractorClaims.

Section PipelineClaims.
Context {Color : Type} `{EqDecision Color}.
Variable choose : gset point -> point.
Hypothesis choose_in : forall s : gset point, s <> ∅ -> choose s ∈ s.
Variable img : image Color.

(** C3: both stages return; the coordinates the rectangles of the
    catalog cover are the pixels of the image; every pixel is covered
    by exactly one rectangle of the whole catalog; no coordinate is
    covered at two places of the catalog; and the group made from the
    rectangles of a colour covers pixels of that colour only. *)
Theorem catalog_covers_grid_once :
  exists regions rects,
    find_color_regions img = Ret regions
    /\ create_rects choose regions = Ret rects
    /\ (forall p,
          (exists r, r ∈ catalog_rects (catalog rects) /\ covers r p)
          <-> in_bounds img p)
    /\ (forall p, in_bounds img p ->
          cover_count (catalog_rects (catalog rects)) p = 1%nat)
    /\ (forall i j r1 r2 p,
          catalog_rects (catalog rects) !! i = Some r1 ->
          catalog_rects (catalog rects) !! j = Some r2 ->
          covers r1 p -> covers r2 p -> i = j)
    /\ (forall i c rl,
          rects !! i = Some (c, rl) ->
          catalog rects !! i = Some (region_name (S i), rl)
          /\ forall r p, r ∈ rl -> covers r p -> color_at img p = c).
Proof.
  destruct (pipeline_spec choose choose_in img)
    as (regions & rects & visited & Hfind & Hrects & Hinv & Hall & Hgroups).
  pose proof (catalog_cover_count img regions rects visited Hinv Hall Hgroups)
    as Hcount.
  exists regions, rects. split; [done|]. split; [done|].
  split; [|split; [|split]].
  - intros p. rewrite <- cover_count_pos, Hcount.
    case_decide; split; try done; lia.
  - intros p Hp. by rewrite Hcount, decide_True.
  - intros i j r1 r2 p Hi Hj H1 H2.
    apply (cover_count_le_1 (catalog_rects (catalog rects)) p i j r1 r2);
      try done.
    rewrite Hcount. case_decide; lia.
  - intros i c rl Hi. split; [by rewrite catalog_lookup, Hi|].
    intros r p Hr Hcov.
    by destruct (group_color img regions rects visited Hinv Hgroups
                   i c rl r p Hi Hr Hcov).
Qed.

(** C2, as the code has it: the catalog has one group for each colour,
    holding the rectangles of all the components of that colour; the
    group of the i-th colour of the dictionary is the i-th group and is
    named Region_i, counting from 1, so the names differ; the colours
    come in the order in which they first occur in the scan, row by
    row; and two pixels of the image lie in one group exactly when they
    have the same colour. *)
Theorem same_group_iff_same_color :
  exists regions rects,
    find_color_regions img = Ret regions
    /\ create_rects choose regions = Ret rects
    /\ NoDup (dict_keys rects)
    /\ NoDup (catalog rects).*1
    /\ length (catalog rects) = length rects
    /\ (forall p q,
          in_bounds img p -> in_bounds img q ->
          same_group (catalog rects) p q <-> color_at img p = color_at img q)
    /\ (forall i c rl,
          rects !! i = Some (c, rl) ->
          catalog rects !! i = Some (region_name (S i), rl))
    /\ (forall c, c ∈ dict_keys rects
                  <-> exists p, in_bounds img p /\ color_at img p = c)
    /\ first_seen_order img
         (grid_list (img_size img).1 (img_size img).2) (dict_keys rects).
Proof.
  destruct (pipeline_spec choose choose_in img)
    as (regions & rects & visited & Hfind & Hrects & Hinv & Hall & Hgroups).
  exists regions, rects. split; [done|]. split; [done|].
  split; [by apply (rects_keys_NoDup img regions rects visited)|].
  split; [apply catalog_names_NoDup|].
  split; [unfold catalog; apply length_imap|].
  split; [|split; [|split]].
  - intros p q Hp Hq.
    by apply (same_group_iff_color img regions rects visited).
  - intros i c rl Hi. by rewrite catalog_lookup, Hi.
  - intros c. rewrite (group_ok_keys _ _ Hgroups).
    destruct (find_color_regions_key_order img) as (regions' & Hfind' & Hko).
    rewrite Hfind in Hfind'. injection Hfind' as <-. split.
    + intros Hc. destruct (ko_seen _ _ _ Hko c Hc) as (p & Hp & Hcp).
      exists p. split; [|done]. by apply elem_of_grid_list in Hp.
    + intros (p & Hp & <-). apply (ko_keys _ _ _ Hko).
      by apply elem_of_grid_list.
  - rewrite (group_ok_keys _ _ Hgroups).
    destruct (find_color_regions_key_order img) as (regions' & Hfind' & Hko).
    rewrite Hfind in Hfind'. injection Hfind' as <-.
    apply (ko_order _ _ _ Hko).
Qed.
End PipelineClaims.

(** ** Concrete instances *)

Lemma split_3x3_never_one_rect_witness :
  (forall s : gset point, s <> ∅ -> choose_low s ∈ s)
  /\ find_color_regions img3 = Ret [("A"%string, [comp3])]
  /\ exists rects,
       split_into_rects choose_low comp3 = Ret rects
       /\ rects <> [(0, 0, 3, 3)]
       /\ forall r, r ∈ rects -> r.2 <= 2.
Proof.
  split; [exact choose_low_in|].
  exact (split_3x3_never_one_rect choose_low choose_low_in).
Defined.

Lemma split_into_rects_exact_cover_witness :
  (forall s : gset point, s <> ∅ -> choose_low s ∈ s)
  /\ exists rects,
       split_into_rects choose_low [(0, 0); (0, 1); (0, 2); (1, 2)] = Ret rects
       /\ (forall p, (exists r, r ∈ rects /\ covers r p)
                     <-> p ∈ [(0, 0); (0, 1); (0, 2); (1, 2)])
       /\ (forall i j r1 r2 p,
             rects !! i = Some r1 -> rects !! j = Some r2 ->
             covers r1 p -> covers r2 p -> i = j).
Proof.
  split; [exact choose_low_in|].
  exact (split_into_rects_exact_cover choose_low choose_low_in
           [(0, 0); (0, 1); (0, 2); (1, 2)]).
Defined.

Lemma split_into_rects_terminates_witness :
  (forall s : gset point, s <> ∅ -> choose_low s ∈ s)
  /\ (list_to_set comp3 : gset point) <> ∅
  /\ (exists r s',
        split_step choose_low (list_to_set comp3) = Ret (r, s')
        /\ (choose_low (list_to_set comp3) ∈ (list_to_set comp3 : gset point))
        /\ (choose_low (list_to_set comp3) ∉ s')
        /\ (size s' < size (list_to_set comp3 : gset point))%nat)
  /\ (size (list_to_set comp3 : gset point) < 10)%nat
  /\ (exists rects,
        split_loop choose_low 10 (list_to_set comp3) [] = Ret rects
        /\ (length rects <= size (list_to_set comp3 : gset point))%nat)
  /\ exists rects,
       split_into_rects choose_low comp3 = Ret rects
       /\ (length rects <= size (list_to_set comp3 : gset point))%nat
       /\ (length rects <= length comp3)%nat.
Proof.
  assert ((list_to_set comp3 : gset point) <> ∅) as Hne.
  { intros Heq. apply (f_equal size) in Heq. vm_compute in Heq. discriminate. }
  assert (size (list_to_set comp3 : gset point) < 10)%nat as Hlt.
  { vm_compute. lia. }
  destruct (split_into_rects_terminates choose_low choose_low_in comp3)
    as (Hstep & Hloop & Hall).
  split; [exact choose_low_in|]. split; [exact Hne|].
  split; [exact (Hstep _ Hne)|]. split; [exact Hlt|].
  split; [exact (Hloop 10%nat _ Hlt) | exact Hall].
Defined.

Lemma split_into_rects_height_le_2_witness :
  (forall s : gset point, s <> ∅ -> choose_low s ∈ s)
  /\ exists rects,
       split_into_rects choose_low comp3 = Ret rects
       /\ forall x y width height,
            (x, y, width, height) ∈ rects -> 1 <= height <= 2.
Proof.
  split; [exact choose_low_in|].
  exact (proj2 (split_into_rects_height_le_2 choose_low choose_low_in comp3)).
Defined.

Lemma split_into_rects_keeps_argument_witness :
  (forall s : gset point, s <> ∅ -> choose_low s ∈ s)
  /\ heap3 !! 0%nat = Some (Store.PyList comp3)
  /\ exists rects h',
       Store.split_into_rects choose_low 0%nat heap3 = Ret (rects, h')
       /\ split_into_rects choose_low comp3 = Ret rects
       /\ h' !! 0%nat = Some (Store.PyList comp3)
       /\ forall l o, heap3 !! l = Some o -> h' !! l = Some o.
Proof.
  split; [exact choose_low_in|]. split; [reflexivity|].
  exact (proj2 (proj2 (split_into_rects_keeps_argument choose_low
                         choose_low_in heap3 0%nat comp3 eq_refl))).
Defined.

Lemma main_aborts_on_load_failure_witness :
  open_small "map.bmp" = inl img3
  /\ img_size img3 <> (6144, 4096)
  /\ exists msg,
       load_bmp_try open_small "map.bmp" = Raise (Exn ValueError msg)
       /\ files (main choose_low print_ok write_ok load_ok open_small
                   "map.bmp" "Regions.xml" (World [] ∅)).2
          = files (World [] ∅)
       /\ (print_ok (World [] ∅) ("Error loading image: " +:+ msg) = None ->
           load_bmp print_ok open_small "map.bmp" (World [] ∅)
           = (Ret None,
              World (stdout (World [] ∅) ++ ["Error loading image: " +:+ msg])
                (files (World [] ∅)))
           /\ main choose_low print_ok write_ok load_ok open_small
                "map.bmp" "Regions.xml" (World [] ∅)
              = (Ret tt,
                 World
                   (stdout (World [] ∅) ++ ["Error loading image: " +:+ msg])
                   (files (World [] ∅))))
       /\ (forall e,
             print_ok (World [] ∅) ("Error loading image: " +:+ msg) = Some e ->
             main choose_low print_ok write_ok load_ok open_small
               "map.bmp" "Regions.xml" (World [] ∅)
             = (Raise e, World [] ∅)).
Proof.
  assert (img_size img3 <> (6144, 4096)) as Hsize by (simpl; intros [=]).
  split; [reflexivity|]. split; [exact Hsize|].
  exact (proj1 (main_aborts_on_load_failure choose_low print_ok write_ok
                  load_ok open_small "map.bmp" "Regions.xml" (World [] ∅)
                  img3 eq_refl Hsize)).
Defined.

(** C9 as the specification states it fails when standard output
    cannot be written: the image behind the path has the wrong size, the
    [try] block raises the [ValueError], the handler's [print] raises an
    [OSError], and that exception leaves [load_bmp], which so returns
    neither an image nor [None]. *)
Lemma load_bmp_propagates_print_error :
  load_bmp print_full open_small "map.bmp" (World [] ∅)
  = (Raise (Exn OSError "[Errno 28] No space left on device"), World [] ∅)
  /\ ~ ((exists img,
            (load_bmp print_full open_small "map.bmp" (World [] ∅)).1
            = Ret (Some img)
            /\ img_size img = (6144, 4096))
        \/ (load_bmp print_full open_small "map.bmp" (World [] ∅)).1
           = Ret None).
Proof.
  split; [reflexivity|]. intros [(img & Himg & _)|Hnone]; discriminate.
Qed.

Lemma catalog_covers_grid_once_witness :
  (forall s : gset point, s <> ∅ -> choose_low s ∈ s)
  /\ exists regions rects,
       find_color_regions img10 = Ret regions
       /\ create_rects choose_low regions = Ret rects
       /\ (forall p,
             (exists r, r ∈ catalog_rects (catalog rects) /\ covers r p)
             <-> in_bounds img10 p)
       /\ (forall p, in_bounds img10 p ->
             cover_count (catalog_rects (catalog rects)) p = 1%nat).
Proof.
  split; [exact choose_low_in|].
  destruct (catalog_covers_grid_once choose_low choose_low_in img10)
    as (regions & rects & H1 & H2 & H3 & H4 & _).
  exact (ex_intro _ regions (ex_intro _ rects (conj H1 (conj H2 (conj H3 H4))))).
Defined.

Lemma same_group_iff_same_color_witness :
  (forall s : gset point, s <> ∅ -> choose_low s ∈ s)
  /\ exists regions rects,
       find_color_regions img10 = Ret regions
       /\ create_rects choose_low regions = Ret rects
       /\ NoDup (dict_keys rects)
       /\ NoDup (catalog rects).*1
       /\ length (catalog rects) = length rects
       /\ (forall p q,
             in_bounds img10 p -> in_bounds img10 q ->
             same_group (catalog rects) p q
             <-> color_at img10 p = color_at img10 q)
       /\ (forall i c rl,
             rects !! i = Some (c, rl) ->
             catalog rects !! i = Some (region_name (S i), rl))
       /\ (forall c, c ∈ dict_keys rects
                     <-> exists p, in_bounds img10 p /\ color_at img10 p = c)
       /\ first_seen_order img10
            (grid_list (img_size img10).1 (img_size img10).2) (dict_keys rects).
Proof.
  split; [exact choose_low_in|].
  exact (same_group_iff_same_color choose_low choose_low_in img10).
Defined.

(** C2 as the specification states it fails on the 10 by 10 image
    with colour A at (0,0) and (5,5) only: the two pixels have one
    colour and are not connected through pixels of that colour, yet
    rectangles of the one group Region_1 cover both. *)
Lemma same_group_not_connected :
  exists regions rects,
    find_color_regions img10 = Ret regions
    /\ create_rects choose_low regions = Ret rects
    /\ catalog rects !! 0%nat = Some ("Region_1"%string, [(0, 0, 1, 1); (5, 5, 1, 1)])
    /\ color_at img10 (0, 0) = color_at img10 (5, 5)
    /\ ~ (same_group (catalog rects) (0, 0) (5, 5)
          <-> same_color_connected img10 (0, 0) (5, 5)).
Proof.
  eexists. eexists.
  split; [vm_compute; reflexivity|]. split; [vm_compute; reflexivity|].
  split; [vm_compute; reflexivity|]. split; [reflexivity|].
  intros [Hconn _].
  assert (same_color_connected img10 (0, 0) (5, 5)) as Hpath.
  { apply Hconn. exists "Region_1"%string, [(0, 0, 1, 1); (5, 5, 1, 1)].
    split; [left|]. split.
    - exists (0, 0, 1, 1). split; [left | simpl; lia].
    - exists (5, 5, 1, 1). split; [right; left | simpl; lia]. }
  apply path_in_first_step in Hpath as [Heq|(r & Hadj & Hb & Hc)];
    [discriminate|].
  apply adjacent_neighbours in Hadj.
  repeat (apply elem_of_cons in Hadj as [->|Hadj]);
    try (vm_compute in Hc; discriminate);
    try (destruct Hb as [Hx Hy]; simpl in Hx, Hy; lia).
  by apply elem_of_nil in Hadj.
Qed.

(** ** Runs of the program on small inputs *)

(** Scenario B, lowest coordinate popped first: the L shape gives a
    rectangle of two rows and one of one row. *)
Example split_L_shape :
  split_into_rects choose_low [(0, 0); (0, 1); (0, 2); (1, 2)]
  = Ret [(0, 0, 1, 2); (0, 2, 2, 1)].
Proof. vm_compute. reflexivity. Qed.

(** Scenario C: one group for colour A with both single pixels, one
    group for colour B. *)
Example catalog_img10_names :
  (regions ← find_color_regions img10;
   rects ← create_rects choose_low regions;
   Ret ((catalog rects).*1, length (catalog rects)))
  = Ret (["Region_1"%string; "Region_2"%string], 2%nat).
Proof. vm_compute. reflexivity. Qed.

(** A load failure: one line printed, no file written. *)
Example main_small_image :
  main choose_low print_ok write_ok load_ok open_small
    "map.bmp" "Regions.xml" (World [] ∅)
  = (Ret tt,
     World
       ["Error loading image: Image dimensions are (3, 3), but expected 6144x4096."%string]
       ∅).
Proof. vm_compute. reflexivity. Qed.

(** * Further properties of the code *)

(** ** [bounding_rect] *)

Lemma foldl_min_spec (xs : list Z) :
  forall x : Z,
    foldl Z.min x xs <= x
    /\ (forall y, y ∈ xs -> foldl Z.min x xs <= y)
    /\ (foldl Z.min x xs = x \/ foldl Z.min x xs ∈ xs).
Proof.
  induction xs as [|a xs IH]; intros x; cbn [foldl].
  - split; [lia|]. split; [|by left]. intros y Hy. by apply elem_of_nil in Hy.
  - destruct (IH (Z.min x a)) as (Hle & Hall & Hin).
    split; [lia|]. split.
    + intros y Hy. apply elem_of_cons in Hy as [->|Hy]; [lia | by apply Hall].
    + destruct Hin as [Hin|Hin]; [|right; by right].
      destruct (Z.min_spec x a) as [[_ Hm]|[_ Hm]].
      * left. by rewrite Hin.
      * right. rewrite Hin, Hm. left.
Qed.

Lemma foldl_max_spec (xs : list Z) :
  forall x : Z,
    x <= foldl Z.max x xs
    /\ (forall y, y ∈ xs -> y <= foldl Z.max x xs)
    /\ (foldl Z.max x xs = x \/ foldl Z.max x xs ∈ xs).
Proof.
  induction xs as [|a xs IH]; intros x; cbn [foldl].
  - split; [lia|]. split; [|by left]. intros y Hy. by apply elem_of_nil in Hy.
  - destruct (IH (Z.max x a)) as (Hle & Hall & Hin).
    split; [lia|]. split.
    + intros y Hy. apply elem_of_cons in Hy as [->|Hy]; [lia | by apply Hall].
    + destruct Hin as [Hin|Hin]; [|right; by right].
      destruct (Z.max_spec x a) as [[_ Hm]|[_ Hm]].
      * right. rewrite Hin, Hm. left.
      * left. by rewrite Hin.
Qed.

Lemma py_min_spec (xs : list Z) :
  xs <> [] ->
  exists m, py_min xs = Ret m /\ m ∈ xs /\ forall y, y ∈ xs -> m <= y.
Proof.
  destruct xs as [|x xs]; [done|]. intros _.
  destruct (foldl_min_spec xs x) as (Hle & Hall & Hin).
  exists (foldl Z.min x xs). split; [done|]. split.
  - destruct Hin as [->|Hin]; [left | by right].
  - intros y Hy. apply elem_of_cons in Hy as [->|Hy]; [done | by apply Hall].
Qed.

Lemma py_max_spec (xs : list Z) :
  xs <> [] ->
  exists m, py_max xs = Ret m /\ m ∈ xs /\ forall y, y ∈ xs -> y <= m.
Proof.
  destruct xs as [|x xs]; [done|]. intros _.
  destruct (foldl_max_spec xs x) as (Hle & Hall & Hin).
  exists (foldl Z.max x xs). split; [done|]. split.
  - destruct Hin as [->|Hin]; [left | by right].
  - intros y Hy. apply elem_of_cons in Hy as [->|Hy]; [done | by apply Hall].
Qed.

(** X1: [bounding_rect] raises a [ValueError] exactly when it is given
    no points (the first [min] has nothing to take the minimum of), and
    returns a rectangle exactly when it is given one point or more. *)
Theorem bounding_rect_error_iff_empty (points : list point) :
  ((exists msg, bounding_rect points = Raise (Exn ValueError msg))
   <-> points = [])
  /\ ((exists r, bounding_rect points = Ret r) <-> points <> []).
Proof.
  assert (points <> [] -> exists r, bounding_rect points = Ret r) as Hok.
  { intros Hne. unfold bounding_rect.
    assert (points.*1 <> []) as H1 by (by destruct points).
    assert (points.*2 <> []) as H2 by (by destruct points).
    destruct (py_min_spec _ H1) as (a & -> & _).
    destruct (py_max_spec _ H1) as (b & -> & _).
    destruct (py_min_spec _ H2) as (c & -> & _).
    destruct (py_max_spec _ H2) as (d & -> & _).
    eexists. reflexivity. }
  split; split.
  - intros [msg Hmsg]. destruct points as [|p points]; [done|].
    destruct Hok as [r Hr]; [done|]. congruence.
  - intros ->. eexists. reflexivity.
  - intros [r Hr] ->. discriminate.
  - exact Hok.
Qed.

Lemma bounding_rect_spec (points : list point) (x y width height : Z) :
  bounding_rect points = Ret (x, y, width, height) ->
  (forall p, p ∈ points -> covers (x, y, width, height) p)
  /\ 1 <= width /\ 1 <= height
  /\ (exists p, p ∈ points /\ p.1 = x)
  /\ (exists p, p ∈ points /\ p.1 = x + width - 1)
  /\ (exists p, p ∈ points /\ p.2 = y)
  /\ (exists p, p ∈ points /\ p.2 = y + height - 1).
Proof.
  intros Hrun. unfold bounding_rect in Hrun.
  destruct points as [|p0 points]; [discriminate|].
  set (pts := p0 :: points) in *.
  assert (pts.*1 <> []) as H1 by done.
  assert (pts.*2 <> []) as H2 by done.
  destruct (py_min_spec _ H1) as (a & Ha & Hain & Hamin).
  destruct (py_max_spec _ H1) as (b & Hb & Hbin & Hbmax).
  destruct (py_min_spec _ H2) as (c & Hc & Hcin & Hcmin).
  destruct (py_max_spec _ H2) as (d & Hd & Hdin & Hdmax).
  rewrite Ha, Hb, Hc, Hd in Hrun. simpl in Hrun.
  injection Hrun as <- <- <- <-.
  assert (a <= b) by (by apply Hbmax).
  assert (c <= d) by (by apply Hdmax).
  apply list_elem_of_fmap in Hain as (pa & -> & Hpa).
  apply list_elem_of_fmap in Hbin as (pb & -> & Hpb).
  apply list_elem_of_fmap in Hcin as (pc & -> & Hpc).
  apply list_elem_of_fmap in Hdin as (pd & -> & Hpd).
  split; [|split; [lia|split; [lia|]]].
  - intros p Hp. simpl.
    assert (p.1 ∈ pts.*1) as Hx by (apply list_elem_of_fmap; eauto).
    assert (p.2 ∈ pts.*2) as Hy by (apply list_elem_of_fmap; eauto).
    pose proof (Hamin _ Hx). pose proof (Hbmax _ Hx).
    pose proof (Hcmin _ Hy). pose proof (Hdmax _ Hy). lia.
  - split; [by exists pa|]. split; [exists pb; split; [done|lia]|].
    split; [by exists pc|]. exists pd. split; [done|lia].
Qed.

(** X2: the rectangle [bounding_rect] returns covers every point it was
    given, is at least 1 wide and 1 high, and is tight: a point lies on
    each of its four sides. *)
Theorem bounding_rect_tight (points : list point) (x y width height : Z) :
  bounding_rect points = Ret (x, y, width, height) ->
  (forall p, p ∈ points -> covers (x, y, width, height) p)
  /\ 1 <= width /\ 1 <= height
  /\ (exists p, p ∈ points /\ p.1 = x)
  /\ (exists p, p ∈ points /\ p.1 = x + width - 1)
  /\ (exists p, p ∈ points /\ p.2 = y)
  /\ (exists p, p ∈ points /\ p.2 = y + height - 1).
Proof. apply bounding_rect_spec. Qed.

(** ** [flood_fill] on arbitrary arguments *)

Section FloodExtras.
Context {Color : Type} `{EqDecision Color}.
Variable img : image Color.

(** The loop from any state: it returns, and what it appends to the
    region are distinct pixels of the image, of the colour asked for and
    not visited before, which are exactly what it adds to the visited
    set. *)
Lemma flood_loop_basic (c : Color) (n : nat) :
  forall queue (visited : gset point) (region : list point),
    (4 * size (grid_set img ∖ visited) + length queue < n)%nat ->
    exists region' visited',
      flood_loop n img c queue visited region = Ret (region ++ region', visited')
      /\ NoDup region'
      /\ (forall p, p ∈ region' ->
            (p ∉ visited) /\ in_bounds img p /\ color_at img p = c)
      /\ (forall p, p ∈ visited' <-> p ∈ visited \/ p ∈ region').
Proof.
  induction n as [|n IH]; intros queue visited region Hn; [lia|].
  cbn [flood_loop]. destruct queue as [|[x y] queue].
  { exists [], visited. rewrite app_nil_r. split; [done|].
    split; [constructor|]. split.
    - intros p Hp. by apply elem_of_nil in Hp.
    - intros p. rewrite elem_of_nil. tauto. }
  simpl in Hn. destruct (img_size img) as [w h] eqn:Hsize.
  destruct (decide ((x, y) ∈ visited)) as [Hvis|Hvis]; [apply IH; lia|].
  destruct (decide (x < 0 \/ y < 0 \/ x >= w \/ y >= h)) as [Hout|Hin];
    [apply IH; lia|].
  assert (in_bounds img (x, y)) as Hb.
  { unfold in_bounds. rewrite Hsize. simpl. lia. }
  unfold getpixel. rewrite decide_True by done. rewrite bind_Ret.
  destruct (decide (img_pixels img x y <> c)) as [Hne|Heq]; [apply IH; lia|].
  assert (color_at img (x, y) = c) as Hc.
  { unfold color_at. simpl. by destruct (decide (img_pixels img x y = c)). }
  destruct (IH (queue ++ [(x + 1, y); (x - 1, y); (x, y + 1); (x, y - 1)])
              ({[ (x, y) ]} ∪ visited) (region ++ [(x, y)]))
    as (region' & visited' & Hrun & Hnd & Hnew & Hvis').
  { pose proof (size_unvisited img (x, y) visited Hb Hvis).
    rewrite length_app. simpl. lia. }
  exists ((x, y) :: region'), visited'.
  split; [by rewrite Hrun, <- app_assoc|]. split; [|split].
  - constructor; [|done]. intros Hin'. destruct (Hnew _ Hin') as [Hn' _].
    apply Hn'. apply elem_of_union. left. by apply elem_of_singleton.
  - intros p Hp. apply elem_of_cons in Hp as [->|Hp]; [done|].
    destruct (Hnew p Hp) as (Hn' & Hb' & Hc'). split; [|done].
    intros Hv. apply Hn'. apply elem_of_union. by right.
  - intros p. rewrite Hvis', elem_of_union, elem_of_singleton, elem_of_cons.
    tauto.
Qed.

(** One pass of the loop. *)
Lemma flood_loop_unfold (n : nat) (c : Color) (x y : Z) (queue : list point)
    (visited : gset point) (region : list point) :
  flood_loop (S n) img c ((x, y) :: queue) visited region
  = if decide ((x, y) ∈ visited \/ ~ in_bounds img (x, y)
               \/ color_at img (x, y) <> c)
    then flood_loop n img c queue visited region
    else flood_loop n img c
           (queue ++ [(x + 1, y); (x - 1, y); (x, y + 1); (x, y - 1)])
           ({[ (x, y) ]} ∪ visited) (region ++ [(x, y)]).
Proof.
  cbn [flood_loop]. destruct (img_size img) as [w h] eqn:Hsize.
  assert (in_bounds img (x, y) <-> ~ (x < 0 \/ y < 0 \/ x >= w \/ y >= h))
    as Hbounds.
  { unfold in_bounds. rewrite Hsize. simpl. lia. }
  change (color_at img (x, y)) with (img_pixels img x y).
  destruct (decide ((x, y) ∈ visited)) as [Hvis|Hvis];
    [by rewrite decide_True by tauto|].
  destruct (decide (x < 0 \/ y < 0 \/ x >= w \/ y >= h)) as [Hout|Hin];
    [rewrite decide_True; [done | tauto]|].
  unfold getpixel. rewrite decide_True by tauto. rewrite bind_Ret.
  destruct (decide (img_pixels img x y <> c)) as [Hne|Heq].
  - by rewrite decide_True by tauto.
  - rewrite decide_False; [done | tauto].
Qed.

(** X3: [flood_fill] returns for every start coordinate, colour and
    visited set, inside the image or not; it raises no [IndexError].
    The region it returns has no coordinate twice and consists of
    pixels of the image that have the colour asked for and were not
    visited before; the visited set grows by exactly the region. *)
Theorem flood_fill_total (x y : Z) (color : Color) (visited : gset point) :
  exists region visited',
    flood_fill img x y color visited = Ret (region, visited')
    /\ NoDup region
    /\ (forall p, p ∈ region ->
          (p ∉ visited) /\ in_bounds img p /\ color_at img p = color)
    /\ (forall p, p ∈ visited' <-> p ∈ visited \/ p ∈ region).
Proof.
  unfold flood_fill.
  destruct (flood_loop_basic color (flood_bound img) [(x, y)] visited [])
    as (region & visited' & Hrun & Hrest).
  { pose proof (size_grid_set img) as Hsz.
    assert (size (grid_set img ∖ visited) <= size (grid_set img))%nat.
    { apply subseteq_size. intros q Hq.
      by apply elem_of_difference in Hq as [Hq _]. }
    unfold flood_bound. simpl. lia. }
  exists region, visited'. split; [exact Hrun | exact Hrest].
Qed.

(** X4: a start coordinate that is already visited, lies outside the
    image or has another colour gives the empty region and leaves the
    visited set as it was; any other start coordinate is the first
    element of the region returned. *)
Theorem flood_fill_start (x y : Z) (color : Color) (visited : gset point) :
  ((x, y) ∈ visited \/ ~ in_bounds img (x, y)
   \/ color_at img (x, y) <> color ->
   flood_fill img x y color visited = Ret ([], visited))
  /\ ((x, y) ∉ visited -> in_bounds img (x, y) ->
      color_at img (x, y) = color ->
      exists rest visited',
        flood_fill img x y color visited = Ret ((x, y) :: rest, visited')).
Proof.
  unfold flood_fill, flood_bound. rewrite flood_loop_unfold. split.
  - intros Hskip. by rewrite decide_True.
  - intros Hvis Hb Hc. rewrite decide_False by tauto.
    destruct (flood_loop_basic color
                (S (4 * (Z.to_nat (img_size img).1 * Z.to_nat (img_size img).2)))
                ([] ++ [(x + 1, y); (x - 1, y); (x, y + 1); (x, y - 1)])
                ({[ (x, y) ]} ∪ visited) ([] ++ [(x, y)]))
      as (rest & visited' & Hrun & _).
    { pose proof (size_grid_set img) as Hsz.
      pose proof (size_unvisited img (x, y) visited Hb Hvis).
      assert (size (grid_set img ∖ visited) <= size (grid_set img))%nat.
      { apply subseteq_size. intros q Hq.
        by apply elem_of_difference in Hq as [Hq _]. }
      simpl. lia. }
    exists rest, visited'. exact Hrun.
Qed.

Lemma for_each_id {A S : Type} (xs : list A) (s : S) :
  for_each xs (fun _ s => Ret s) s = Ret s.
Proof. induction xs as [|x xs IH]; [done|]. cbn [for_each]. by rewrite bind_Ret. Qed.

Lemma range_empty (a b : Z) : b <= a -> range a b = [].
Proof.
  intros Hle. unfold range, seqZ. by replace (Z.to_nat (b - a)) with 0%nat by lia.
Qed.

(** X5: an image of width or height zero has no regions: the scan
    returns the empty dictionary. *)
Theorem find_color_regions_empty_image :
  (img_size img).1 <= 0 \/ (img_size img).2 <= 0 ->
  find_color_regions img = Ret [].
Proof.
  intros Hzero. unfold find_color_regions.
  destruct (img_size img) as [w h]. simpl in Hzero.
  destruct (decide (h <= 0)) as [Hh|Hh].
  - by rewrite (range_empty 0 h).
  - rewrite (range_empty 0 w) by lia. cbn [for_each].
    by rewrite for_each_id.
Qed.
End FloodExtras.

(** ** The colours of the dictionary *)

Section RegionKeys.
Context {Color : Type} `{EqDecision Color}.
Variable img : image Color.

(** The body of the scan records no empty component. *)
Lemma scan_pixel_nonempty (x y : Z)
    (regions regions' : list (Color * list (list point)))
    (visited visited' : gset point) :
  scan_inv img regions visited -> in_bounds img (x, y) ->
  regions_nonempty regions ->
  scan_pixel img x y (regions, visited) = Ret (regions', visited') ->
  regions_nonempty regions'.
Proof.
  intros Hinv Hin Hne. unfold scan_pixel, getpixel.
  rewrite decide_True by done. rewrite bind_Ret.
  destruct (decide ((x, y) ∈ visited)) as [Hvis|Hvis].
  { intros [= <- <-]. done. }
  change (img_pixels img x y) with (color_at img (x, y)).
  destruct (flood_fill_spec img x y visited (si_closed _ _ _ Hinv) Hin Hvis)
    as (region & V' & Hrun & _ & Hmem & _).
  rewrite Hrun, bind_Ret. cbv beta iota.
  set (c := color_at img (x, y)) in *.
  assert (region <> []) as Hregion.
  { intros ->. by apply elem_of_nil in Hmem. }
  unfold regions_nonempty in *.
  destruct (dict_has regions c) eqn:Hhas.
  - apply dict_has_true in Hhas.
    destruct (dict_get_in regions c Hhas) as (d1 & v & d2 & -> & Hd1 & Hget).
    rewrite Hget, bind_Ret, dict_set_at by done. intros [= <- <-].
    apply Forall_app in Hne as [H1 H2].
    apply Forall_cons in H2 as [[_ Hv] H2]. simpl in Hv.
    apply Forall_app. split; [done|]. apply Forall_cons. split; [|done].
    simpl. split; [by destruct v|].
    apply Forall_app. split; [done|]. by apply Forall_singleton.
  - apply dict_has_false in Hhas.
    rewrite dict_set_new by done.
    rewrite dict_get_at, bind_Ret, dict_set_at by done. intros [= <- <-].
    apply Forall_app. split; [done|]. apply Forall_singleton. simpl.
    split; [done|]. by apply Forall_singleton.
Qed.

Lemma find_color_regions_nonempty :
  exists regions,
    find_color_regions img = Ret regions /\ regions_nonempty regions.
Proof.
  unfold find_color_regions.
  destruct (img_size img) as [w h] eqn:Hsize.
  destruct (for_each_inv
              (fun (done : list Z)
                   (st : list (Color * list (list point)) * gset point) =>
                 scan_inv img st.1 st.2 /\ regions_nonempty st.1)
              (range 0 h)
              (fun y st =>
                 for_each (range 0 w) (fun x st => scan_pixel img x y st) st)
              ([], ∅))
    as ([regions visited] & Hrun & Hinv & Hne).
  - split; [|constructor]. split; simpl.
    + intros p Hp. by apply not_elem_of_empty in Hp.
    + constructor.
    + intros p. by rewrite decide_False by apply not_elem_of_empty.
    + constructor.
  - intros done y rest st Hsplit Hst.
    assert (0 <= y < h) as Hy.
    { apply (elem_of_range 0 h). rewrite Hsplit. apply elem_of_app.
      right. left. }
    apply (for_each_inv
             (fun (done' : list Z)
                  (st : list (Color * list (list point)) * gset point) =>
                scan_inv img st.1 st.2 /\ regions_nonempty st.1)).
    + done.
    + intros done' x rest' [regions1 visited1] Hsplit' [Hinv1 Hne1].
      simpl in *.
      assert (in_bounds img (x, y)) as Hb.
      { assert (0 <= x < w).
        { apply (elem_of_range 0 w). rewrite Hsplit'. apply elem_of_app.
          right. left. }
        unfold in_bounds. rewrite Hsize. simpl. lia. }
      destruct (scan_pixel_spec img x y regions1 visited1 Hinv1 Hb)
        as (regions2 & visited2 & Hrun2 & Hinv2 & _).
      exists (regions2, visited2). split; [done|]. simpl. split; [done|].
      by apply (scan_pixel_nonempty x y regions1 regions2 visited1 visited2).
  - simpl in *. rewrite Hrun, bind_Ret. by exists regions.
Qed.

(** X6: the dictionary [find_color_regions] returns has no key twice,
    its keys are exactly the colours that occur in the image, every key
    has at least one component and no component is empty. *)
Theorem find_color_regions_keys :
  exists regions,
    find_color_regions img = Ret regions
    /\ NoDup (dict_keys regions)
    /\ (forall c, c ∈ dict_keys regions
                  <-> exists p, in_bounds img p /\ color_at img p = c)
    /\ (forall c comps,
          (c, comps) ∈ regions ->
          comps <> [] /\ forall comp, comp ∈ comps -> comp <> []).
Proof.
  destruct (find_color_regions_spec img)
    as (regions & visited & Hrun & Hinv & Hall).
  destruct find_color_regions_nonempty as (regions' & Hrun' & Hne).
  rewrite Hrun in Hrun'. injection Hrun' as <-.
  unfold regions_nonempty in Hne. rewrite Forall_forall in Hne.
  pose proof (si_comps _ _ _ Hinv) as Hok. rewrite Forall_forall in Hok.
  exists regions. split; [done|]. split; [apply (si_keys _ _ _ Hinv)|].
  split.
  - intros c. split.
    + intros Hc. apply list_elem_of_fmap in Hc as ([c' comps] & -> & He).
      destruct (Hne _ He) as [Hcomps Hall']. simpl in *.
      destruct comps as [|comp comps]; [done|].
      apply Forall_cons in Hall' as [Hcomp _].
      destruct comp as [|p comp]; [done|].
      specialize (Hok _ He). simpl in Hok.
      apply Forall_cons in Hok as [Hok _].
      exists p. apply (comp_color _ _ _ Hok). left.
    + intros (p & Hp & Hc).
      assert (0 < component_count regions p)%nat as Hpos.
      { rewrite (si_count _ _ _ Hinv), decide_True; [lia|]. by apply Hall. }
      apply component_count_pos in Hpos as (c' & comps & comp & He & Hcomp & Hin).
      specialize (Hok _ He). simpl in Hok. rewrite Forall_forall in Hok.
      destruct (comp_color _ _ _ (Hok _ Hcomp) p Hin) as [_ Hcol].
      apply list_elem_of_fmap. exists (c', comps). split; [|done].
      simpl. congruence.
  - intros c comps He. destruct (Hne _ He) as [Hcomps Hall']. simpl in *.
    split; [done|]. by rewrite Forall_forall in Hall'.
Qed.
End RegionKeys.

(** ** More on the decomposition *)

Section DecomposerExtras.
Variable choose : gset point -> point.
Hypothesis choose_in : forall s : gset point, s <> ∅ -> choose s ∈ s.

(** X7: one pass of the outer loop is greedy to the right and looks one
    row down: the coordinate right of the rectangle's first row is not
    among the remaining points, and the rectangle is 2 high exactly
    when every coordinate under its first row is among the remaining
    points; otherwise it is 1 high. *)
Theorem split_step_greedy (s : gset point) :
  s <> ∅ ->
  exists width height s',
    split_step choose s
    = Ret (((choose s).1, (choose s).2, width, height), s')
    /\ 1 <= width
    /\ (forall x, (choose s).1 <= x < (choose s).1 + width ->
                  (x, (choose s).2) ∈ s)
    /\ (((choose s).1 + width, (choose s).2) ∉ s)
    /\ (height = 1 \/ height = 2)
    /\ (height = 2 <->
        forall x, (choose s).1 <= x < (choose s).1 + width ->
                  (x, (choose s).2 + 1) ∈ s).
Proof.
  intros Hs. unfold split_step. rewrite set_pop_spec by done.
  rewrite bind_Ret. pose proof (choose_in s Hs) as Hin.
  destruct (choose s) as [x0 y0] eqn:Hc. cbv beta iota zeta. cbn [fst snd].
  set (s1 := s ∖ {[ (x0, y0) ]}).
  destruct (grow_width_spec (S (size s1)) x0 y0 1 s1)
    as (w & s2 & Hw & Hle & Hs2 & Hrow & Hstop); [lia|].
  rewrite Hw, bind_Ret. rewrite (range_single (y0 + 1)) by lia.
  assert (forall x, x0 <= x < x0 + w -> (x, y0) ∈ s) as Hrow1.
  { intros x Hx. destruct (decide (x = x0)) as [->|Hne]; [done|].
    assert ((x, y0) ∈ s1) as Hx1 by (apply Hrow; lia).
    by apply elem_of_difference in Hx1 as [Hx1 _]. }
  assert ((x0 + w, y0) ∉ s) as Hmax.
  { intros Hin'. apply Hstop. apply Hs2. simpl. split; [|lia].
    apply elem_of_difference. split; [done|].
    rewrite elem_of_singleton, pair_eq_iff. lia. }
  assert (forall x, (x, y0 + 1) ∈ s2 <-> (x, y0 + 1) ∈ s) as Hbelow.
  { intros x. rewrite Hs2. unfold s1.
    rewrite elem_of_difference, elem_of_singleton, pair_eq_iff. simpl.
    split; [tauto|]. intros Hx. split; [split; [done|]|]; lia. }
  cbn [grow_height].
  destruct (row_present (range x0 (x0 + w)) (y0 + 1) s2) eqn:Hrp.
  - pose proof (proj1 (row_present_spec _ _ _) Hrp) as Hall.
    destruct (remove_row_spec (range x0 (x0 + w)) (y0 + 1) s2)
      as (s3 & Hrm & Hs3); [apply NoDup_range | done |].
    rewrite Hrm, !bind_Ret.
    exists w, 2, s3. split; [done|]. split; [lia|]. split; [done|].
    split; [done|]. split; [by right|]. split; [|done].
    intros _ x Hx. apply Hbelow. apply Hall. by apply elem_of_range.
  - exists w, 1, s2. split; [done|]. split; [lia|]. split; [done|].
    split; [done|]. split; [by left|]. split; [lia|].
    intros Hall.
    assert (row_present (range x0 (x0 + w)) (y0 + 1) s2 = true) as Habs.
    { apply row_present_spec. intros x Hx. apply Hbelow. apply Hall.
      by apply elem_of_range. }
    congruence.
Qed.

(** X8: a single coordinate decomposes into the one rectangle of width
    1 and height 1 at that coordinate. *)
Theorem split_into_rects_single (p : point) :
  split_into_rects choose [p] = Ret [(p.1, p.2, 1, 1)].
Proof.
  destruct (split_into_rects_spec choose choose_in [p])
    as (rects & Hrun & Hlen & Hcount & Hshape).
  rewrite Hrun. f_equal.
  assert (size (list_to_set [p] : gset point) = 1%nat) as Hsz.
  { rewrite list_to_set_cons, list_to_set_nil, union_empty_r_L.
    apply size_singleton. }
  rewrite Hsz in Hlen.
  assert (forall q, cover_count rects q = if decide (q = p) then 1%nat else 0%nat)
    as Hcount'.
  { intros q. rewrite Hcount. pose proof (list_elem_of_singleton q p).
    repeat case_decide; tauto. }
  destruct rects as [|[[[x y] w] h] rects].
  { specialize (Hcount' p). rewrite decide_True in Hcount' by done. done. }
  destruct rects as [|r rects]; [|simpl in Hlen; lia].
  apply Forall_cons in Hshape as [[Hw Hh] _]. simpl in Hw, Hh.
  assert (forall q, covers (x, y, w, h) q <-> q = p) as Hcov.
  { intros q. specialize (Hcount' q).
    rewrite cover_count_cons, cover_count_nil in Hcount'.
    repeat case_decide; try done; simpl in Hcount'; lia. }
  assert ((x, y) = p) as <-. { apply Hcov. simpl. lia. }
  assert (w = 1).
  { destruct (decide (w = 1)) as [|Hne]; [done|].
    assert ((x + 1, y) = (x, y)) as Heq by (apply Hcov; simpl; lia).
    apply pair_eq_iff in Heq. lia. }
  assert (h = 1).
  { destruct (decide (h = 1)) as [|Hne]; [done|].
    assert ((x, y + 1) = (x, y)) as Heq by (apply Hcov; simpl; lia).
    apply pair_eq_iff in Heq. lia. }
  by subst.
Qed.

(** X9: the decomposition is the empty list exactly for the empty
    input. *)
Theorem split_into_rects_nil_iff (points : list point) :
  split_into_rects choose points = Ret [] <-> points = [].
Proof.
  split.
  - intros Hrun.
    destruct (split_into_rects_spec choose choose_in points)
      as (rects & Hrun' & _ & Hcount & _).
    rewrite Hrun in Hrun'. injection Hrun' as <-.
    destruct points as [|p points]; [done|].
    specialize (Hcount p). rewrite cover_count_nil in Hcount.
    rewrite decide_True in Hcount by left. done.
  - intros ->. reflexivity.
Qed.

Lemma extend_rects_eq {Color : Type} `{EqDecision Color} (c : Color)
    (comp : list point) (rects : list (Color * list rect)) (rl : list rect) :
  c ∉ dict_keys rects ->
  extend_rects choose c comp (rects ++ [(c, rl)])
  = (new ← split_into_rects choose comp; Ret (rects ++ [(c, rl ++ new)])).
Proof.
  intros Hc. unfold extend_rects. rewrite dict_get_at, bind_Ret by done.
  destruct (split_into_rects choose comp) as [new| |]; try done.
  by rewrite !bind_Ret, dict_set_at.
Qed.

Lemma create_rects_concat_spec {Color : Type} `{EqDecision Color}
    (regions : list (Color * list (list point))) :
  NoDup (dict_keys regions) ->
  exists rects,
    create_rects choose regions = Ret rects
    /\ Forall2
         (fun (e : Color * list (list point)) (g : Color * list rect) =>
            g.1 = e.1
            /\ exists news,
                 Forall2 (fun comp new => split_into_rects choose comp = Ret new)
                   e.2 news
                 /\ g.2 = concat news)
         regions rects.
Proof.
  intros Hkeys. unfold create_rects.
  assert (forall (c : Color) (comps : list (list point))
                 (rects : list (Color * list rect)) (rl : list rect),
            c ∉ dict_keys rects ->
            exists news,
              for_each comps (extend_rects choose c) (rects ++ [(c, rl)])
              = Ret (rects ++ [(c, rl ++ concat news)])
              /\ Forall2 (fun comp new => split_into_rects choose comp = Ret new)
                   comps news) as Hinner.
  { intros c comps. induction comps as [|comp comps IH]; intros rects rl Hc.
    - exists []. simpl. rewrite app_nil_r. split; [done|constructor].
    - cbn [for_each]. rewrite extend_rects_eq by done.
      destruct (split_into_rects_spec choose choose_in comp)
        as (new & Hrun & _).
      rewrite Hrun, !bind_Ret.
      destruct (IH rects (rl ++ new) Hc) as (news & Hloop & Hall).
      exists (new :: news). split; [|by constructor].
      rewrite Hloop. cbn [concat]. by rewrite app_assoc. }
  set (R := fun (e : Color * list (list point)) (g : Color * list rect) =>
              g.1 = e.1
              /\ exists news,
                   Forall2
                     (fun comp new => split_into_rects choose comp = Ret new)
                     e.2 news
                   /\ g.2 = concat news).
  apply (for_each_inv (fun done rects => Forall2 R done rects)).
  - constructor.
  - intros done [c comps] rest rects Hsplit Hdone.
    assert (dict_keys rects = dict_keys done) as Hk.
    { clear -Hdone. induction Hdone as [|e g done rects [Hk _] _ IH]; [done|].
      unfold dict_keys in *. rewrite !fmap_cons. by rewrite IH, Hk. }
    assert (c ∉ dict_keys rects) as Hc.
    { rewrite Hk. rewrite Hsplit in Hkeys.
      rewrite dict_keys_app, dict_keys_cons in Hkeys.
      apply NoDup_app in Hkeys as (_ & Hdisj & _).
      intros Hin. apply (Hdisj c Hin). left. }
    rewrite dict_set_new by done.
    destruct (Hinner c comps rects [] Hc) as (news & Hrun & Hall).
    exists (rects ++ [(c, concat news)]). split; [done|].
    apply Forall2_app; [done|]. constructor; [|constructor].
    split; [done|]. by exists news.
Qed.


(** X16: every rectangle of the decomposition lies inside the bounding
    rectangle of the points. *)
Theorem split_inside_bounding_rect (points : list point) (b : rect) :
  bounding_rect points = Ret b ->
  exists rects,
    split_into_rects choose points = Ret rects
    /\ forall r p, r ∈ rects -> covers r p -> covers b p.
Proof.
  intros Hb. destruct b as [[[x y] w] h].
  destruct (bounding_rect_spec points x y w h Hb) as (Hcov & _).
  destruct (split_into_rects_spec choose choose_in points)
    as (rects & Hrun & _ & Hcount & _).
  exists rects. split; [done|]. intros r p Hr Hp. apply Hcov.
  assert (0 < cover_count rects p)%nat as Hpos
    by (apply cover_count_pos; eauto).
  rewrite Hcount in Hpos. destruct (decide (p ∈ points)); [done | lia].
Qed.
End DecomposerExtras.

(** ** More on the catalog *)

Section CatalogExtras.
Context {Color : Type} `{EqDecision Color}.
Variable choose : gset point -> point.
Hypothesis choose_in : forall s : gset point, s <> ∅ -> choose s ∈ s.
Variable img : image Color.

(** Every rectangle of the catalog is a rectangle of the decomposition
    of a component, so it has the shape the decomposition gives. *)
Lemma catalog_rects_shape (regions : list (Color * list (list point)))
    (rects : list (Color * list rect)) (r : rect) :
  NoDup (dict_keys regions) ->
  create_rects choose regions = Ret rects ->
  r ∈ catalog_rects (catalog rects) ->
  1 <= r.1.2 /\ 1 <= r.2 <= 2.
Proof.
  intros Hkeys Hrun Hr.
  destruct (create_rects_concat_spec choose choose_in regions Hkeys)
    as (rects' & Hrun' & Hall).
  rewrite Hrun in Hrun'. injection Hrun' as <-.
  unfold catalog_rects in Hr. rewrite catalog_groups in Hr.
  apply elem_of_concat in Hr as (rl & Hrl & Hr).
  apply list_elem_of_fmap in Hrl as ([c rl'] & -> & He). simpl in Hr.
  apply list_elem_of_lookup in He as (i & Hi).
  destruct (Forall2_lookup_r _ _ _ _ _ Hall Hi)
    as ([c' comps] & _ & _ & news & Hnews & Hconcat).
  simpl in Hnews, Hconcat. subst rl'.
  apply elem_of_concat in Hr as (new & Hnew & Hr).
  apply list_elem_of_lookup in Hnew as (j & Hj).
  destruct (Forall2_lookup_r _ _ _ _ _ Hnews Hj) as (comp & _ & Hsplit).
  destruct (split_into_rects_spec choose choose_in comp)
    as (new' & Hsplit' & _ & _ & Hshape).
  rewrite Hsplit in Hsplit'. injection Hsplit' as <-.
  rewrite Forall_forall in Hshape. by apply Hshape.
Qed.

(** X11: every rectangle of the catalog is at least 1 wide, 1 or 2
    high, and lies inside the image. *)
Theorem catalog_rects_valid :
  exists regions rects,
    find_color_regions img = Ret regions
    /\ create_rects choose regions = Ret rects
    /\ forall x y width height,
         (x, y, width, height) ∈ catalog_rects (catalog rects) ->
         1 <= width /\ 1 <= height <= 2
         /\ 0 <= x /\ 0 <= y
         /\ x + width <= (img_size img).1 /\ y + height <= (img_size img).2.
Proof.
  destruct (pipeline_spec choose choose_in img)
    as (regions & rects & visited & Hfind & Hrects & Hinv & Hall & Hgroups).
  exists regions, rects. split; [done|]. split; [done|].
  intros x y w h Hr.
  destruct (catalog_rects_shape regions rects (x, y, w, h)
              (si_keys _ _ _ Hinv) Hrects Hr) as [Hw Hh].
  simpl in Hw, Hh.
  assert (forall q, covers (x, y, w, h) q -> in_bounds img q) as Hin.
  { intros q Hq.
    assert (0 < cover_count (catalog_rects (catalog rects)) q)%nat as Hpos.
    { apply cover_count_pos. eauto. }
    rewrite (catalog_cover_count img regions rects visited Hinv Hall Hgroups)
      in Hpos.
    destruct (decide (in_bounds img q)); [done | lia]. }
  destruct (Hin (x, y)) as [Hx Hy]; [simpl; lia|].
  destruct (Hin (x + w - 1, y + h - 1)) as [Hx' Hy']; [simpl; lia|].
  simpl in *. lia.
Qed.

(** X12: the catalog has at most as many rectangles as the image has
    pixels. *)
Theorem catalog_rects_count :
  exists regions rects,
    find_color_regions img = Ret regions
    /\ create_rects choose regions = Ret rects
    /\ (length (catalog_rects (catalog rects))
        <= Z.to_nat (img_size img).1 * Z.to_nat (img_size img).2)%nat.
Proof.
  destruct (pipeline_spec choose choose_in img)
    as (regions & rects & visited & Hfind & Hrects & Hinv & Hall & Hgroups).
  exists regions, rects. split; [done|]. split; [done|].
  pose proof (catalog_cover_count img regions rects visited Hinv Hall Hgroups)
    as Hcount.
  set (all := catalog_rects (catalog rects)) in *.
  set (origin := fun r : rect => (r.1.1.1, r.1.1.2)).
  assert (forall r, r ∈ all -> covers r (origin r)) as Horigin.
  { intros [[[x y] w] h] Hr.
    destruct (catalog_rects_shape regions rects (x, y, w, h)
                (si_keys _ _ _ Hinv) Hrects Hr) as [Hw Hh].
    simpl in *. lia. }
  assert (NoDup (origin <$> all)) as Hnd.
  { apply NoDup_alt. intros i j o Hi Hj.
    rewrite list_lookup_fmap in Hi, Hj.
    destruct (all !! i) as [r1|] eqn:H1; [|done].
    destruct (all !! j) as [r2|] eqn:H2; [|done].
    simpl in Hi, Hj. injection Hi as Hi. injection Hj as Hj.
    apply (cover_count_le_1 all o i j r1 r2); try done.
    - rewrite Hcount. case_decide; lia.
    - rewrite <- Hi. apply Horigin. by eapply list_elem_of_lookup_2.
    - rewrite <- Hj. apply Horigin. by eapply list_elem_of_lookup_2. }
  assert (origin <$> all ⊆+ grid_list (img_size img).1 (img_size img).2)
    as Hsub.
  { apply NoDup_submseteq; [done|]. intros o Ho.
    apply list_elem_of_fmap in Ho as (r & -> & Hr).
    apply elem_of_grid_list.
    assert (0 < cover_count all (origin r))%nat as Hpos.
    { apply cover_count_pos. exists r. split; [done | by apply Horigin]. }
    rewrite Hcount in Hpos.
    destruct (decide (in_bounds img (origin r))) as [Hb|Hb]; [done | lia]. }
  apply submseteq_length in Hsub.
  rewrite length_fmap, length_grid_list in Hsub. lia.
Qed.
End CatalogExtras.

(** ** The document *)

Lemma rect_element_inj (r1 r2 : rect) :
  rect_element r1 = rect_element r2 -> r1 = r2.
Proof.
  destruct r1 as [[[x1 y1] w1] h1], r2 as [[[x2 y2] w2] h2].
  unfold rect_element. intros [= Hx Hy Hw Hh].
  apply (inj pretty) in Hx, Hy, Hw, Hh. by subst.
Qed.

Lemma map_rect_element_inj (rl1 rl2 : list rect) :
  map rect_element rl1 = map rect_element rl2 -> rl1 = rl2.
Proof.
  revert rl2. induction rl1 as [|r1 rl1 IH]; intros [|r2 rl2] Heq;
    try done.
  simpl in Heq. injection Heq as Hr Hrest.
  apply rect_element_inj in Hr. apply IH in Hrest. by subst.
Qed.

(** X13: the element tree [generate_xml] builds determines the
    rectangle lists: two dictionaries with the same tree have the same
    rectangle lists in the same order.  (The colours are not written.) *)
Theorem regions_tree_inj {Color : Type} (rects1 rects2 : list (Color * list rect)) :
  regions_tree rects1 = regions_tree rects2 -> rects1.*2 = rects2.*2.
Proof.
  unfold regions_tree. intros [= Heq].
  apply list_eq. intros i. apply (f_equal (fun l => l !! i)) in Heq.
  rewrite !list_lookup_imap in Heq. rewrite !list_lookup_fmap.
  destruct (rects1 !! i) as [[c1 rl1]|], (rects2 !! i) as [[c2 rl2]|];
    simpl in *; try done.
  assert (map rect_element rl1 = map rect_element rl2) as Hmap
    by (unfold region_element in Heq; congruence).
  apply map_rect_element_inj in Hmap. by subst.
Qed.

(** ** [main] on a bitmap of the expected size *)

Section MainExtras.
Context {Color : Type} `{EqDecision Color}.
Variable choose : gset point -> point.
Hypothesis choose_in : forall s : gset point, s <> ∅ -> choose s ∈ s.
Variable print_error : world -> string -> option exn.
Variable write_result : world -> string -> write_outcome.
Variable load_error : image Color -> option exn.
Variable Image_open : string -> image Color + exn.

(** X14: when [Image.open] gives an image of 6144 by 4096, the two core
    stages return on its decoded grid, and [main] ends as the world
    outside lets it.  If [img.load()] raises, or the output file cannot
    be opened, [main] ends with that exception and no file is changed;
    if the write fails after the file was opened, [main] ends with that
    exception and the file is left incomplete; otherwise the output
    path holds the element tree of the rectangles, every other file is
    as before, and [main] returns with the success line printed, or
    ends with the exception of that [print]. *)
Theorem main_writes_catalog (bmp_file output_file : string) (w : world)
    (img : image Color) :
  Image_open bmp_file = inl img ->
  img_size img = (6144, 4096) ->
  exists regions rects,
    find_color_regions img = Ret regions
    /\ create_rects choose regions = Ret rects
    /\ (forall e,
          load_error img = Some e ->
          main choose print_error write_result load_error Image_open
            bmp_file output_file w
          = (Raise e, w))
    /\ (load_error img = None ->
        (forall e,
            write_result w output_file = OpenFails e ->
            main choose print_error write_result load_error Image_open
              bmp_file output_file w
            = (Raise e, w))
        /\ (forall e,
              write_result w output_file = WriteFails e ->
              main choose print_error write_result load_error Image_open
                bmp_file output_file w
              = (Raise e,
                 World (stdout w) (<[output_file := Incomplete]> (files w))))
        /\ (write_result w output_file = Written ->
            (print_error
               (World (stdout w)
                  (<[output_file := Document (regions_tree rects)]> (files w)))
               ("Regions.xml generated successfully at " +:+ output_file)
             = None ->
             main choose print_error write_result load_error Image_open
               bmp_file output_file w
             = (Ret tt,
                World
                  (stdout w
                   ++ ["Regions.xml generated successfully at "
                       +:+ output_file])
                  (<[output_file := Document (regions_tree rects)]>
                     (files w))))
            /\ (forall e,
                  print_error
                    (World (stdout w)
                       (<[output_file := Document (regions_tree rects)]>
                          (files w)))
                    ("Regions.xml generated successfully at " +:+ output_file)
                  = Some e ->
                  main choose print_error write_result load_error Image_open
                    bmp_file output_file w
                  = (Raise e,
                     World (stdout w)
                       (<[output_file := Document (regions_tree rects)]>
                          (files w)))))).
Proof.
  intros Hopen Hsize.
  destruct (pipeline_spec choose choose_in img)
    as (regions & rects & visited & Hfind & Hrects & _).
  exists regions, rects. split; [done|]. split; [done|].
  assert (load_bmp print_error Image_open bmp_file w = (Ret (Some img), w))
    as Hload.
  { unfold load_bmp, load_bmp_try. rewrite Hopen.
    by rewrite decide_False by (intros Hne; by apply Hne). }
  unfold main. rewrite Hload. cbn [and_then]. unfold load_pixels. split.
  - intros e He. by rewrite He.
  - intros Hl. rewrite Hl, bind_Ret, Hfind, bind_Ret, Hrects.
    cbn [and_then]. unfold generate_xml, print. split; [|split].
    + intros e He. by rewrite He.
    + intros e He. by rewrite He.
    + intros Hw. rewrite Hw. cbn [and_then]. split.
      * intros Hp. by rewrite Hp.
      * intros e Hp. by rewrite Hp.
Qed.
End MainExtras.

(** ** A set as the argument of [split_into_rects] *)

Section StoreExtras.
Variable choose : gset point -> point.
Hypothesis choose_in : forall s : gset point, s <> ∅ -> choose s ∈ s.

(** X15: called with a reference to a set, the function also works on a
    copy: it returns rectangles that cover each element of the set
    once and nothing else, the caller's set and every other object that
    existed before are unchanged, and the copy is empty at the end. *)
Theorem split_into_rects_keeps_set (h : gmap nat Store.obj) (points : nat)
    (s : gset point) :
  h !! points = Some (Store.PySet s) ->
  exists rects h',
    Store.split_into_rects choose points h = Ret (rects, h')
    /\ (forall p, cover_count rects p = if decide (p ∈ s) then 1%nat else 0%nat)
    /\ h' !! points = Some (Store.PySet s)
    /\ (forall l o, h !! l = Some o -> h' !! l = Some o)
    /\ h' !! fresh (dom h) = Some (Store.PySet ∅).
Proof.
  intros Hl.
  assert (h !! fresh (dom h) = None) as Hfresh.
  { apply not_elem_of_dom. apply is_fresh. }
  unfold Store.split_into_rects, Store.new_set. rewrite Hl.
  rewrite bind_Ret. cbv beta iota zeta.
  rewrite (get_set_lookup _ _ s) by apply lookup_insert_eq.
  rewrite bind_Ret.
  rewrite (store_split_loop choose _ _ s) by apply lookup_insert_eq.
  destruct (split_loop_spec choose choose_in (S (size s)) s [])
    as (rects & Hrun & _ & Hcount & _); [lia|].
  rewrite Hrun, bind_Ret. rewrite insert_insert_eq.
  exists rects, (<[fresh (dom h) := Store.PySet ∅]> h).
  split; [done|]. split; [done|].
  assert (forall l o, h !! l = Some o ->
            <[fresh (dom h) := Store.PySet ∅]> h !! l = Some o) as Hframe.
  { intros l o Ho. rewrite lookup_insert_ne; [done|]. intros <-. congruence. }
  split; [by apply Hframe|]. split; [done|]. apply lookup_insert_eq.
Qed.
End StoreExtras.

(** ** Concrete instances of the further properties *)

Lemma bounding_rect_tight_witness :
  bounding_rect comp3 = Ret (0, 0, 3, 3)
  /\ (forall p, p ∈ comp3 -> covers (0, 0, 3, 3) p)
  /\ 1 <= 3 /\ 1 <= 3
  /\ (exists p, p ∈ comp3 /\ p.1 = 0)
  /\ (exists p, p ∈ comp3 /\ p.1 = 0 + 3 - 1)
  /\ (exists p, p ∈ comp3 /\ p.2 = 0)
  /\ (exists p, p ∈ comp3 /\ p.2 = 0 + 3 - 1).
Proof.
  split; [reflexivity|]. exact (bounding_rect_tight comp3 0 0 3 3 eq_refl).
Defined.

Lemma flood_fill_start_witness :
  (color_at img10 (0, 0) <> "B"%string
   /\ flood_fill img10 0 0 "B"%string ∅ = Ret ([], ∅))
  /\ (((0, 0) ∉ (∅ : gset point))
      /\ in_bounds img10 (0, 0)
      /\ color_at img10 (0, 0) = "A"%string
      /\ exists rest visited',
           flood_fill img10 0 0 "A"%string ∅ = Ret ((0, 0) :: rest, visited')).
Proof.
  assert (color_at img10 (0, 0) <> "B"%string) as Hne by (vm_compute; discriminate).
  assert (in_bounds img10 (0, 0)) as Hb by (unfold in_bounds; simpl; lia).
  destruct (flood_fill_start img10 0 0 "B"%string ∅) as [Hskip _].
  destruct (flood_fill_start img10 0 0 "A"%string ∅) as [_ Hacc].
  split.
  - split; [exact Hne|]. apply Hskip. right. right. exact Hne.
  - split; [apply not_elem_of_empty|]. split; [exact Hb|].
    split; [reflexivity|].
    exact (Hacc (not_elem_of_empty _) Hb eq_refl).
Defined.

Lemma find_color_regions_empty_image_witness :
  ((img_size img_empty).1 <= 0 \/ (img_size img_empty).2 <= 0)
  /\ find_color_regions img_empty = Ret [].
Proof.
  assert ((img_size img_empty).1 <= 0 \/ (img_size img_empty).2 <= 0) as Hz
    by (left; simpl; lia).
  split; [exact Hz|]. exact (find_color_regions_empty_image img_empty Hz).
Defined.

Lemma split_step_greedy_witness :
  (forall s : gset point, s <> ∅ -> choose_low s ∈ s)
  /\ (list_to_set comp3 : gset point) <> ∅
  /\ exists width height s',
       split_step choose_low (list_to_set comp3)
       = Ret (((choose_low (list_to_set comp3)).1,
               (choose_low (list_to_set comp3)).2, width, height), s')
       /\ 1 <= width
       /\ (height = 1 \/ height = 2).
Proof.
  assert ((list_to_set comp3 : gset point) <> ∅) as Hne.
  { intros Heq. apply (f_equal size) in Heq. vm_compute in Heq. discriminate. }
  split; [exact choose_low_in|]. split; [exact Hne|].
  destruct (split_step_greedy choose_low choose_low_in (list_to_set comp3) Hne)
    as (w & h & s' & Hrun & Hw & _ & _ & Hh & _).
  exact (ex_intro _ w (ex_intro _ h (ex_intro _ s' (conj Hrun (conj Hw Hh))))).
Defined.

Lemma split_into_rects_single_witness :
  (forall s : gset point, s <> ∅ -> choose_low s ∈ s)
  /\ split_into_rects choose_low [(4, 7)] = Ret [(4, 7, 1, 1)].
Proof.
  split; [exact choose_low_in|].
  exact (split_into_rects_single choose_low choose_low_in (4, 7)).
Defined.

Lemma split_into_rects_nil_iff_witness :
  (forall s : gset point, s <> ∅ -> choose_low s ∈ s)
  /\ (split_into_rects choose_low [] = Ret [] <-> ([] : list point) = []).
Proof.
  split; [exact choose_low_in|].
  exact (split_into_rects_nil_iff choose_low choose_low_in []).
Defined.


Lemma split_inside_bounding_rect_witness :
  (forall s : gset point, s <> ∅ -> choose_low s ∈ s)
  /\ bounding_rect comp3 = Ret (0, 0, 3, 3)
  /\ exists rects,
       split_into_rects choose_low comp3 = Ret rects
       /\ forall r p, r ∈ rects -> covers r p -> covers (0, 0, 3, 3) p.
Proof.
  split; [exact choose_low_in|]. split; [reflexivity|].
  exact (split_inside_bounding_rect choose_low choose_low_in comp3
           (0, 0, 3, 3) eq_refl).
Defined.

Lemma catalog_rects_valid_witness :
  (forall s : gset point, s <> ∅ -> choose_low s ∈ s)
  /\ exists regions rects,
       find_color_regions img10 = Ret regions
       /\ create_rects choose_low regions = Ret rects
       /\ forall x y width height,
            (x, y, width, height) ∈ catalog_rects (catalog rects) ->
            1 <= width /\ 1 <= height <= 2
            /\ 0 <= x /\ 0 <= y
            /\ x + width <= (img_size img10).1
            /\ y + height <= (img_size img10).2.
Proof.
  split; [exact choose_low_in|].
  exact (catalog_rects_valid choose_low choose_low_in img10).
Defined.

Lemma catalog_rects_count_witness :
  (forall s : gset point, s <> ∅ -> choose_low s ∈ s)
  /\ exists regions rects,
       find_color_regions img10 = Ret regions
       /\ create_rects choose_low regions = Ret rects
       /\ (length (catalog_rects (catalog rects))
           <= Z.to_nat (img_size img10).1 * Z.to_nat (img_size img10).2)%nat.
Proof.
  split; [exact choose_low_in|].
  exact (catalog_rects_count choose_low choose_low_in img10).
Defined.

Lemma regions_tree_inj_witness :
  regions_tree [("A"%string, [(0, 0, 3, 2); (0, 2, 3, 1)])]
  = regions_tree [("B"%string, [(0, 0, 3, 2); (0, 2, 3, 1)])]
  /\ [("A"%string, [(0, 0, 3, 2); (0, 2, 3, 1)])].*2
     = [("B"%string, [(0, 0, 3, 2); (0, 2, 3, 1)])].*2.
Proof.
  split; [reflexivity|].
  exact (regions_tree_inj [("A"%string, [(0, 0, 3, 2); (0, 2, 3, 1)])]
           [("B"%string, [(0, 0, 3, 2); (0, 2, 3, 1)])] eq_refl).
Defined.

Lemma main_writes_catalog_witness :
  (forall s : gset point, s <> ∅ -> choose_low s ∈ s)
  /\ open_full "map.bmp" = inl img_full
  /\ img_size img_full = (6144, 4096)
  /\ load_ok img_full = None
  /\ write_ok (World [] ∅) "Regions.xml" = Written
  /\ exists rects : list (string * list rect),
       print_ok
         (World [] (<["Regions.xml"%string := Document (regions_tree rects)]> ∅))
         ("Regions.xml generated successfully at " +:+ "Regions.xml")
       = None
       /\ main choose_low print_ok write_ok load_ok open_full
            "map.bmp" "Regions.xml" (World [] ∅)
          = (Ret tt,
             World
               ([] ++ ["Regions.xml generated successfully at "
                       +:+ "Regions.xml"])
               (<["Regions.xml"%string := Document (regions_tree rects)]> ∅)).
Proof.
  split; [exact choose_low_in|]. split; [reflexivity|]. split; [reflexivity|].
  split; [reflexivity|]. split; [reflexivity|].
  destruct (main_writes_catalog choose_low choose_low_in print_ok write_ok
              load_ok open_full "map.bmp" "Regions.xml" (World [] ∅) img_full
              eq_refl eq_refl)
    as (regions & rects & _ & _ & _ & Hmain).
  destruct (Hmain eq_refl) as (_ & _ & Hwritten).
  destruct (Hwritten eq_refl) as [Hok _].
  exact (ex_intro _ rects (conj eq_refl (Hok eq_refl))).
Defined.

Lemma split_into_rects_keeps_set_witness :
  (forall s : gset point, s <> ∅ -> choose_low s ∈ s)
  /\ heap_set !! 0%nat = Some (Store.PySet (list_to_set comp3))
  /\ exists rects h',
       Store.split_into_rects choose_low 0%nat heap_set = Ret (rects, h')
       /\ (forall p, cover_count rects p
                     = if decide (p ∈ (list_to_set comp3 : gset point))
                       then 1%nat else 0%nat)
       /\ h' !! 0%nat = Some (Store.PySet (list_to_set comp3))
       /\ (forall l o, heap_set !! l = Some o -> h' !! l = Some o)
       /\ h' !! fresh (dom heap_set) = Some (Store.PySet ∅).
Proof.
  split; [exact choose_low_in|]. split; [reflexivity|].
  exact (split_into_rects_keeps_set choose_low choose_low_in heap_set 0%nat
           (list_to_set comp3) eq_refl).
Defined.
